(** * midi-listener: message classification, input curation and the
      callback registry, embedded from the TypeScript sources.

    - [source/MidiListener.ts]: [parseMidiMessage], [noteCodeToFrequency],
      [handleMidiMessage], [curateMidiInputs];
    - [source/utilities/Caller.ts]: the [Caller] registry and the
      [subscribe] / [clear] methods of the listener built on it.

    Numbers.  A [Uint8Array] cell is a [Byte.byte].  JavaScript numbers
    that the code only compares or negates are exact rationals ([Q]), with
    [None] standing for [NaN] (respectively [undefined] for an array cell
    read out of range).  The frequency field of a note report carries the
    value of the formula over the real numbers ([R]); what the code
    computes is that formula in IEEE doubles, which [Double] models with
    the platform's [Math.pow] as a parameter. *)

From Stdlib Require Import ZArith QArith Reals Lia Strings.Byte String.
From Stdlib Require Import Floats.PrimFloat.
From stdpp Require Import base option list functions.

Local Open Scope Z_scope.

(** ** Reports (source/reports.ts) *)

(** [number] after a read that may have produced [undefined] / [NaN]. *)
Definition undefinedOr (A : Type) := option A.

Record MessageReport := {
  data : list byte;
  command : Z;
  channel : Z;
  code : undefinedOr Z;
  value : undefinedOr Q
}.

Record NoteReport := {
  note_code : undefinedOr Z;
  note_velocity : undefinedOr Q;
  frequency : undefinedOr R
}.

Record PadReport := {
  pad_code : undefinedOr Z;
  pad_velocity : undefinedOr Q
}.

Record ScalarReport := { scalar_value : undefinedOr Q }.

Record InputChangeReport := { inputNames : list string }.

(** One call of one of the listener's callbacks, with its argument. *)
Inductive Event :=
| InputChange (report : InputChangeReport)
| Message (report : MessageReport)
| Note (report : NoteReport)
| Pad (report : PadReport)
| PitchBend (report : ScalarReport)
| ModWheel (report : ScalarReport).

Definition isMessage (e : Event) : bool :=
  match e with Message _ => true | _ => false end.
Definition isNote (e : Event) : bool :=
  match e with Note _ => true | _ => false end.
Definition isPad (e : Event) : bool :=
  match e with Pad _ => true | _ => false end.
Definition isPitchBend (e : Event) : bool :=
  match e with PitchBend _ => true | _ => false end.
Definition isModWheel (e : Event) : bool :=
  match e with ModWheel _ => true | _ => false end.
Definition isInputChange (e : Event) : bool :=
  match e with InputChange _ => true | _ => false end.

(** The velocity a button report carries. *)
Definition velocityOf (e : Event) : option (undefinedOr Q) :=
  match e with
  | Note r => Some (note_velocity r)
  | Pad r => Some (pad_velocity r)
  | _ => None
  end.

(** ** The message classifier (source/MidiListener.ts) *)

Definition byteZ (b : byte) : Z := Z.of_N (Byte.to_N b).

(** [message.data[i]]: a cell of the [Uint8Array], [undefined] out of range. *)
Definition cell (d : list byte) (i : nat) : undefinedOr Z :=
  byteZ <$> d !! i.

(** [ToInt32] of a cell: [undefined] becomes [0] under [>>] and [&]. *)
Definition toInt32 (c : undefinedOr Z) : Z := default 0 c.

(** [x / 127] on numbers: [undefined / 127] is [NaN]. *)
Definition div127 (c : undefinedOr Z) : undefinedOr Q :=
  (fun b => inject_Z b / inject_Z 127)%Q <$> c.

Definition parseMidiMessage (message : list byte) : MessageReport :=
  {| data := message;
     command := Z.shiftr (toInt32 (cell message 0)) 4;
     channel := Z.land (toInt32 (cell message 0)) 15;
     code := cell message 1;
     value := div127 (cell message 2) |}.

(** [440 * Math.pow(2, (code - 69) / 12)], the formula itself: over the
    real numbers, without the rounding of the doubles the code computes in
    (for those see [Double.noteCodeToFrequency]). *)
Definition noteCodeToFrequency (code : R) : R :=
  (440 * Rpower 2 ((code - 69) / 12))%R.

(** Unary minus; [-NaN] is [NaN]. *)
Definition neg (v : undefinedOr Q) : undefinedOr Q := Qopp <$> v.

(** [code === 1] *)
Definition strictEq (c : undefinedOr Z) (n : Z) : bool :=
  match c with Some k => k =? n | None => false end.

(** The calls [handleMidiMessage] makes, in order. *)
Definition handleMidiMessage (midiMessage : list byte) : list Event :=
  let messageReport := parseMidiMessage midiMessage in
  let command := command messageReport in
  let channel := channel messageReport in
  let code := code messageReport in
  let value := value messageReport in
  Message messageReport ::
  (if (command =? 8) || (command =? 9) then
     let isStopCommand := command =? 9 in
     let velocity := if isStopCommand then value else neg value in
     if (channel =? 0) || (channel =? 15) then
       [Note {| note_code := code; note_velocity := velocity;
                frequency := noteCodeToFrequency ∘ IZR <$> code |}]
     else if channel =? 9 then
       [Pad {| pad_code := code; pad_velocity := velocity |}]
     else []
   else if command =? 11 then
     if strictEq code 1 then [ModWheel {| scalar_value := value |}] else []
   else if command =? 14 then
     [PitchBend {| scalar_value := value |}]
   else []).

(** ** The host's MIDI access object (web-midi.d.ts) *)

Inductive MIDIPortType := port_input | port_output.
Inductive MIDIPortDeviceState := connected | disconnected.
Inductive MIDIPortConnectionState := open | closed | pending.

Definition isConnected (s : MIDIPortDeviceState) : bool :=
  match s with connected => true | disconnected => false end.
Definition isOpen (c : MIDIPortConnectionState) : bool :=
  match c with open => true | _ => false end.

(** A per-device message hook: what it emits for the bytes it is given. *)
Definition MessageHandler := list byte -> list Event.

Record MIDIInput := {
  id : string;
  manufacturer : string;
  name : string;
  type : MIDIPortType;
  version : string;
  state : MIDIPortDeviceState;
  connection : MIDIPortConnectionState;
  onmidimessage : option MessageHandler
}.

(** What the listener stores in [access.onstatechange]. *)
Inductive StateChangeHook := CurateMidiInputs.

(** [inputs] is a [Map]: its entries in insertion order. *)
Record MIDIAccess := {
  inputs : list (string * MIDIInput);
  onstatechange : option StateChangeHook
}.

(** ** The input curator (source/MidiListener.ts) *)

Record MidiListener := {
  access : MIDIAccess;
  (** declared without initialiser: [undefined] until first assigned *)
  numberOfOpenConnections : undefinedOr nat
}.

(** [input.onmidimessage = message => this.handleMidiMessage(message)] *)
Definition attach (i : MIDIInput) : MIDIInput :=
  {| id := id i; manufacturer := manufacturer i; name := name i;
     type := type i; version := version i; state := state i;
     connection := connection i;
     onmidimessage := Some (fun message => handleMidiMessage message) |}.

(** The [for ... of] loop of [curateMidiInputs], over the entries still to
    visit, threading the two locals; it returns the entries as the loop
    leaves them together with the locals. *)
Fixpoint curateLoop (todo : list (string * MIDIInput))
    (inputNames : list string) (numberOfOpenConnections : nat)
    : list (string * MIDIInput) * list string * nat :=
  match todo with
  | [] => ([], inputNames, numberOfOpenConnections)
  | (key, input) :: rest =>
      let input' := attach input in
      let inputNames := inputNames ++ [name input'] in
      let numberOfOpenConnections :=
        if isConnected (state input') && isOpen (connection input')
        then (numberOfOpenConnections + 1)%nat
        else numberOfOpenConnections in
      let '(rest', names, n) :=
        curateLoop rest inputNames numberOfOpenConnections in
      ((key, input') :: rest', names, n)
  end.

(** [a !== b] between a number and a possibly undefined number. *)
Definition strictNe (a : nat) (b : undefinedOr nat) : bool :=
  match b with Some b => negb (a =? b)%nat | None => true end.

Definition curateMidiInputs (this : MidiListener)
    : MidiListener * list Event :=
  let '(inputs', inputNames, numberOfOpenConnections') :=
    curateLoop (inputs (access this)) [] 0%nat in
  let access' := {| inputs := inputs';
                    onstatechange := onstatechange (access this) |} in
  if strictNe numberOfOpenConnections' (numberOfOpenConnections this) then
    ({| access := access';
        numberOfOpenConnections := Some numberOfOpenConnections' |},
     [InputChange {| inputNames := inputNames |}])
  else
    ({| access := access';
        numberOfOpenConnections := numberOfOpenConnections this |}, []).

(** [new MidiListener({access, ...})] *)
Definition new (options_access : MIDIAccess) : MidiListener * list Event :=
  let this := {| access := options_access;
                 numberOfOpenConnections := None |} in
  let '(this, events) := curateMidiInputs this in
  ({| access := {| inputs := inputs (access this);
                   onstatechange := Some CurateMidiInputs |};
      numberOfOpenConnections := numberOfOpenConnections this |}, events).

(** The host changes its devices to [inputs'] and fires
    [access.onstatechange]. *)
Definition statechange (inputs' : list (string * MIDIInput))
    (this : MidiListener) : MidiListener * list Event :=
  let this := {| access := {| inputs := inputs';
                              onstatechange := onstatechange (access this) |};
                 numberOfOpenConnections := numberOfOpenConnections this |} in
  match onstatechange (access this) with
  | Some CurateMidiInputs => curateMidiInputs this
  | None => (this, [])
  end.

(** A run of the listener: construction, then one notification per
    element of [changes]; the result lists what each call emitted. *)
Fixpoint notifications (this : MidiListener)
    (changes : list (list (string * MIDIInput))) : list (list Event) :=
  match changes with
  | [] => []
  | inputs' :: rest =>
      let '(this, events) := statechange inputs' this in
      events :: notifications this rest
  end.

Definition run (options_access : MIDIAccess)
    (changes : list (list (string * MIDIInput))) : list (list Event) :=
  let '(this, events) := new options_access in
  events :: notifications this changes.

(** The number the loop compares: devices connected and open. *)
Definition openCount (ins : list (string * MIDIInput)) : nat :=
  length (filter (fun kv => isConnected (state kv.2) && isOpen (connection kv.2) = true) ins).

(** ** The callback registry (source/utilities/Caller.ts)

    A [Caller] holds a reference to a JavaScript array.  [add] pushes onto
    the array in place; [remove] and [clear] build a new array and store
    the reference to it; [invoke] iterates over the array that the field
    referenced when the loop started, reading its length anew at every
    step.  The heap below keeps the arrays apart from the references so
    that this sharing is visible.  Callbacks run inside [invoke] and may
    call back into any [Caller]. *)

Section Caller.
Context {I F A : Type} `{EqDecision I} `{EqDecision F}.

(** The methods, as called on the instance [this]. *)
Inductive op :=
| Add (this : I) (callback : F)
| Remove (this : I) (callback : F)
| Clear (this : I)
| Invoke (this : I) (args : A).

Record Heap := {
  arrays : list (list F);     (** every array allocated so far *)
  callbacks : I -> nat;       (** [this.callbacks], a reference *)
  calls : list (F * A)        (** log: each callback applied, in order *)
}.

(** The array [this.callbacks] refers to. *)
Definition subscribed (h : Heap) (this : I) : list F :=
  arrays h !!! callbacks h this.

(** [this.callbacks.push(callback)] *)
Definition add (this : I) (callback : F) (h : Heap) : Heap :=
  {| arrays := alter (fun a => a ++ [callback]) (callbacks h this) (arrays h);
     callbacks := callbacks h;
     calls := calls h |}.

(** [this.callbacks = this.callbacks.filter(cb => cb !== callback)] *)
Definition remove (this : I) (callback : F) (h : Heap) : Heap :=
  {| arrays := arrays h ++ [filter (fun cb => cb <> callback) (subscribed h this)];
     callbacks := <[this := length (arrays h)]> (callbacks h);
     calls := calls h |}.

(** [this.callbacks = []] *)
Definition clear (this : I) (h : Heap) : Heap :=
  {| arrays := arrays h ++ [[]];
     callbacks := <[this := length (arrays h)]> (callbacks h);
     calls := calls h |}.

(** [callback.apply(null, args)] is entered. *)
Definition apply (callback : F) (args : A) (h : Heap) : Heap :=
  {| arrays := arrays h; callbacks := callbacks h;
     calls := calls h ++ [(callback, args)] |}.

(** What is left to run: a method call, or the rest of a
    [for (const callback of array)] loop standing at [index]. *)
Inductive task :=
| Do (o : op)
| ForOf (array : nat) (index : nat) (args : A).

(** What a callback does to the registries when applied. *)
Variable body : F -> A -> list op.

Fixpoint exec (fuel : nat) (todo : list task) (h : Heap) : option Heap :=
  match todo, fuel with
  | [], _ => Some h
  | _ :: _, O => None
  | Do (Add this callback) :: todo, S fuel =>
      exec fuel todo (add this callback h)
  | Do (Remove this callback) :: todo, S fuel =>
      exec fuel todo (remove this callback h)
  | Do (Clear this) :: todo, S fuel => exec fuel todo (clear this h)
  | Do (Invoke this args) :: todo, S fuel =>
      exec fuel (ForOf (callbacks h this) 0 args :: todo) h
  | ForOf array index args :: todo, S fuel =>
      match arrays h !! array ≫= (fun a => a !! index) with
      | None => exec fuel todo h
      | Some callback =>
          exec fuel
            ((Do <$> body callback args)
               ++ ForOf array (S index) args :: todo)
            (apply callback args h)
      end
  end.

(** [caller.invoke(...args)] from outside any callback. *)
Definition invoke (fuel : nat) (this : I) (args : A) (h : Heap)
    : option Heap :=
  exec fuel [Do (Invoke this args)] h.

(** [todo] runs to completion from [h] in [n] steps and leaves [h']:
    with [n] more steps of fuel and anything queued behind it, execution
    continues from [h'] with what was queued. *)
Definition runs (n : nat) (todo : list task) (h h' : Heap) : Prop :=
  forall fuel rest,
    exec (n + fuel) (todo ++ rest) h = exec fuel rest h'.

(** Every reference points into the heap, and no two instances share
    an array. *)
Definition wf (h : Heap) : Prop :=
  (forall i, (callbacks h i < length (arrays h))%nat) /\
  (forall i j, callbacks h i = callbacks h j -> i = j).
End Caller.

Arguments op : clear implicits.
Arguments task : clear implicits.
Arguments Heap : clear implicits.

(** ** The listener built on [Caller] (second listing of Caller.ts) *)

Inductive EventName :=
| onInputChange | onMessage | onNote | onPad | onPitchBend | onModWheel.

#[global] Instance EventName_eq_dec : EqDecision EventName.
Proof. solve_decision. Defined.

(** The keys of [this.events], in the order [for ... in] visits them. *)
Definition eventNames : list EventName :=
  [onInputChange; onMessage; onNote; onPad; onPitchBend; onModWheel].

(** The [Caller] an emitted event is handed to. *)
Definition callerOf (e : Event) : EventName :=
  match e with
  | InputChange _ => onInputChange
  | Message _ => onMessage
  | Note _ => onNote
  | Pad _ => onPad
  | PitchBend _ => onPitchBend
  | ModWheel _ => onModWheel
  end.

Section Subscribe.
Context {F : Type} `{EqDecision F}.

(** The contents of a [MidiListenerEventCallbacks] object, read as
    [callbacks[eventName]].  [subscribe] and [revoke] below work on the
    contents; the function [subscribe] returns holds the object itself and
    reads it again when called, which [ByReference] models. *)
Definition MidiListenerEventCallbacks := EventName -> option F.

(** [events = { onInputChange: new Caller(), ... }]: six fresh arrays. *)
Definition newEvents : Heap EventName F Event :=
  {| arrays := [[]; []; []; []; []; []];
     callbacks := fun e =>
       match e with
       | onInputChange => 0 | onMessage => 1 | onNote => 2
       | onPad => 3 | onPitchBend => 4 | onModWheel => 5
       end%nat;
     calls := [] |}.

(** The loop of [subscribe]: one [add] per key that [callbacks] has. *)
Definition subscribeLoop (callbacks : MidiListenerEventCallbacks)
    : list (op EventName F Event) :=
  omap (fun eventName => Add eventName <$> callbacks eventName) eventNames.

(** The function [subscribe] returns: one [remove] per such key. *)
Definition revoke (callbacks : MidiListenerEventCallbacks)
    : list (op EventName F Event) :=
  omap (fun eventName => Remove eventName <$> callbacks eventName) eventNames.

(** [clear()] of the listener. *)
Definition clearAll : list (op EventName F Event) :=
  (fun eventName => Clear eventName) <$> eventNames.

(** [handleMidiMessage] of this listing: the same decoding, each
    emitted report passed to [invoke] of its [Caller]. *)
Definition handleMidiMessageInvoke (midiMessage : list byte)
    : list (op EventName F Event) :=
  (fun e => Invoke (callerOf e) e) <$> handleMidiMessage midiMessage.

Variable body : F -> Event -> list (op EventName F Event).

(** [listener.subscribe(callbacks)]: the heap afterwards and the
    returned revoking function. *)
Definition subscribe (fuel : nat) (callbacks : MidiListenerEventCallbacks)
    (h : Heap EventName F Event)
    : option (Heap EventName F Event * list (op EventName F Event)) :=
  (fun h' => (h', revoke callbacks)) <$>
    exec body fuel (Do <$> subscribeLoop callbacks) h.
End Subscribe.

(** ** Change detection as the specification words it

    The very first curation reports; a later one reports, with all the
    current names, exactly when its count of connected, open devices
    differs from the count of the curation before it. *)

Definition namesOf (ins : list (string * MIDIInput)) : list string :=
  (fun kv => name kv.2) <$> ins.

Fixpoint reportsAfter (previous : nat)
    (changes : list (list (string * MIDIInput))) : list (list Event) :=
  match changes with
  | [] => []
  | ins :: rest =>
      (if decide (openCount ins = previous) then []
       else [InputChange {| inputNames := namesOf ins |}])
        :: reportsAfter (openCount ins) rest
  end.

Definition reports (first : list (string * MIDIInput))
    (changes : list (list (string * MIDIInput))) : list (list Event) :=
  [InputChange {| inputNames := namesOf first |}]
    :: reportsAfter (openCount first) changes.

(** ** Sample devices *)

Definition device (n : string) (s : MIDIPortDeviceState)
    (c : MIDIPortConnectionState) : string * MIDIInput :=
  (n, {| id := n; manufacturer := ""; name := n; type := port_input;
         version := "1"; state := s; connection := c;
         onmidimessage := None |}).

Definition keys : string * MIDIInput := device "keys" connected open.
Definition pads : string * MIDIInput := device "pads" connected open.
Definition unplugged : string * MIDIInput := device "old" disconnected closed.
Definition noAccess : MIDIAccess := {| inputs := []; onstatechange := None |}.

(** ** Sample subscribers

    Three callbacks [0], [1], [2] on the note event.  Callback [1] was
    subscribed on its own and, when applied, calls the function that
    subscribing it returned; the other two do nothing to the registries. *)

Definition onlyNote (f : nat) : @MidiListenerEventCallbacks nat :=
  fun eventName => match eventName with onNote => Some f | _ => None end.

Definition sampleBody (f : nat) (report : Event)
    : list (op EventName nat Event) :=
  if (f =? 1)%nat then revoke (onlyNote 1) else [].

Definition sampleEvents : Heap EventName nat Event :=
  add onNote 2%nat (add onNote 1%nat (add onNote 0%nat newEvents)).

(** A callback that subscribes another one while it runs. *)
Definition addingBody (f : nat) (report : Event)
    : list (op EventName nat Event) :=
  if (f =? 0)%nat then [Add onPad 9%nat] else [].

Definition padHit : Event :=
  Pad {| pad_code := Some 40; pad_velocity := None |}.

Definition middleC : Event :=
  Note {| note_code := Some 60; note_velocity := Some (127 # 127)%Q;
          frequency := Some (noteCodeToFrequency 60) |}.

(** ** Method calls that only unsubscribe *)

Definition unsubscribes {I F A : Type} (o : op I F A) : bool :=
  match o with
  | Remove _ _ | Clear _ => true
  | Add _ _ | Invoke _ _ => false
  end.

(** ** The listener built on [Caller]: construction, curation, messages
       (second listing of Caller.ts)

    The loop of [curateMidiInputs] is the one of the first listing; the
    report goes to [events.onInputChange.invoke], and the count is stored
    after the subscribers have run.  A device's message handler stands for
    the reports it emits; here each is handed to [invoke] of its
    [Caller]. *)

Module Subscribing.
Section Listener.
Context {F : Type} `{EqDecision F}.
Variable body : F -> Event -> list (op EventName F Event).

Record MidiListener := {
  access : MIDIAccess;
  numberOfActiveInputs : undefinedOr nat;
  events : Heap EventName F Event
}.

Definition curateMidiInputs (fuel : nat) (this : MidiListener)
    : option MidiListener :=
  let '(inputs', inputNames, numberOfOpenConnections) :=
    curateLoop (inputs (access this)) [] 0%nat in
  let access' := {| inputs := inputs';
                    onstatechange := onstatechange (access this) |} in
  if strictNe numberOfOpenConnections (numberOfActiveInputs this) then
    events' ← invoke body fuel onInputChange
                (InputChange {| inputNames := inputNames |}) (events this);
    Some {| access := access';
            numberOfActiveInputs := Some numberOfOpenConnections;
            events := events' |}
  else
    Some {| access := access';
            numberOfActiveInputs := numberOfActiveInputs this;
            events := events this |}.

(** [new MidiListener({access})] *)
Definition new (fuel : nat) (options_access : MIDIAccess)
    : option MidiListener :=
  this ← curateMidiInputs fuel
           {| access := options_access;
              numberOfActiveInputs := None;
              events := newEvents |};
  Some {| access := {| inputs := inputs (access this);
                       onstatechange := Some CurateMidiInputs |};
          numberOfActiveInputs := numberOfActiveInputs this;
          events := events this |}.

(** The host changes its devices to [inputs'] and fires
    [access.onstatechange]. *)
Definition statechange (fuel : nat) (inputs' : list (string * MIDIInput))
    (this : MidiListener) : option MidiListener :=
  let this := {| access := {| inputs := inputs';
                              onstatechange := onstatechange (access this) |};
                 numberOfActiveInputs := numberOfActiveInputs this;
                 events := events this |} in
  match onstatechange (access this) with
  | Some CurateMidiInputs => curateMidiInputs fuel this
  | None => Some this
  end.

(** A device delivers [midiMessage] to the handler the listener attached. *)
Definition handleMidiMessage (fuel : nat) (midiMessage : list byte)
    (this : MidiListener) : option MidiListener :=
  events' ← exec body fuel (Do <$> handleMidiMessageInvoke midiMessage)
              (events this);
  Some {| access := access this;
          numberOfActiveInputs := numberOfActiveInputs this;
          events := events' |}.
End Listener.
End Subscribing.

(** ** The listener of the third listing of Caller.ts

    The same decoding; the callbacks take the numbers themselves rather
    than report objects, and there is no frequency. *)

Module Legacy.
Record MidiListenerParse := {
  data : list byte;
  command : Z;
  channel : Z;
  note : undefinedOr Z;
  velocity : undefinedOr Q
}.

(** One call of one of this listener's callbacks, with its arguments. *)
Inductive Call :=
| onInputChange (inputNames : list string)
| onParse (message : MidiListenerParse)
| onNote (note : undefinedOr Z) (velocity : undefinedOr Q)
| onPad (pad : undefinedOr Z) (velocity : undefinedOr Q)
| onPitchBend (value : undefinedOr Q)
| onModWheel (value : undefinedOr Q).

Definition parseMidiMessage (message : list byte) : MidiListenerParse :=
  {| data := message;
     command := Z.shiftr (toInt32 (cell message 0)) 4;
     channel := Z.land (toInt32 (cell message 0)) 15;
     note := cell message 1;
     velocity := div127 (cell message 2) |}.

Definition handleMidiMessage (message : list byte) : list Call :=
  let parse := parseMidiMessage message in
  let command := command parse in
  let channel := channel parse in
  let note := note parse in
  let velocity := velocity parse in
  onParse parse ::
  (if (command =? 8) || (command =? 9) then
     if (channel =? 0) || (channel =? 15) then
       [onNote note (if command =? 9 then velocity else neg velocity)]
     else if channel =? 9 then
       [onPad note (if command =? 9 then velocity else neg velocity)]
     else []
   else if command =? 11 then
     if strictEq note 1 then [onModWheel velocity] else []
   else if command =? 14 then
     [onPitchBend velocity]
   else []).
End Legacy.

(** What a call of the current listener amounts to in the terms of the
    third listing: the same callback, the report's fields as arguments. *)
Definition legacyCall (e : Event) : Legacy.Call :=
  match e with
  | InputChange r => Legacy.onInputChange (inputNames r)
  | Message r =>
      Legacy.onParse
        {| Legacy.data := data r; Legacy.command := command r;
           Legacy.channel := channel r; Legacy.note := code r;
           Legacy.velocity := value r |}
  | Note r => Legacy.onNote (note_code r) (note_velocity r)
  | Pad r => Legacy.onPad (pad_code r) (pad_velocity r)
  | PitchBend r => Legacy.onPitchBend (scalar_value r)
  | ModWheel r => Legacy.onModWheel (scalar_value r)
  end.

(** A callback that clears every registry of the listener while it runs. *)
Definition clearingBody (f : nat) (report : Event)
    : list (op EventName nat Event) :=
  if (f =? 0)%nat then clearAll else [].

(** A callback that subscribes itself again each time it runs. *)
Definition resubscribingBody (f : nat) (report : Event)
    : list (op EventName nat Event) :=
  if (f =? 1)%nat then [Add onNote 1%nat] else [].

(** ** The frequency in doubles (source/MidiListener.ts)

    [noteCodeToFrequency] computes in JavaScript numbers, IEEE 754 binary64:
    [float] with its primitive operations.  [Math.pow] is the platform's;
    ECMAScript fixes its special cases ([Math.pow(x, 0)] is [1]) and leaves
    the rest to the implementation, so it is a parameter here. *)

Module Double.
Section MathPow.
Local Open Scope float_scope.
Variable Math_pow : float -> float -> float.

Definition noteCodeToFrequency (code : float) : float :=
  440 * Math_pow 2 ((code - 69) / 12).
End MathPow.

(** A [Math.pow] given at the arguments used below only: [1] for exponent
    [0] (whatever the base, as ECMAScript has it), and for base [2] at the
    exponents codes 81, 22 and 10 reach ([1], [(22 - 69) / 12] and
    [(10 - 69) / 12]) the doubles a correctly rounding implementation
    returns there.  Elsewhere it answers [NaN]; it is never asked. *)
Definition Math_pow_rounded (x y : float) : float :=
  (if y =? 0 then 1
   else if negb (x =? 2) then nan
   else if y =? 1 then 2
   else if y =? -0x1.f555555555555p+1 then 0x1.0f38f92d97963p-4
   else if y =? -0x1.3aaaaaaaaaaabp+2 then 0x1.0f38f92d97962p-5
   else nan)%float.
End Double.

(** ** [subscribe] with the callbacks object shared (second listing of
       Caller.ts)

    The function [subscribe] returns closes over the object it was given,
    not over its contents: it reads [callbacks[eventName]] anew when it is
    called, and the application may have written to the object in between.
    The store keeps the application's callbacks objects, by reference,
    beside the registries. *)

Module ByReference.
Section Listener.
Context {F : Type} `{EqDecision F}.
Variable body : F -> Event -> list (op EventName F Event).

Record Store := {
  events : Heap EventName F Event;
  objects : nat -> @MidiListenerEventCallbacks F
}.

(** The function [subscribe] returns: a closure holding the reference
    [callbacks]. *)
Inductive Revoker := Revoke (callbacks : nat).

(** [listener.subscribe(callbacks)] *)
Definition subscribe (fuel : nat) (callbacks : nat) (s : Store)
    : option (Store * Revoker) :=
  events' ← exec body fuel (Do <$> subscribeLoop (objects s callbacks))
              (events s);
  Some ({| events := events'; objects := objects s |}, Revoke callbacks).



End Listener.
End ByReference.



(** * Properties of the message classifier *)

Lemma eqb_cases (a b : Z) : (a =? b) = true /\ a = b \/ (a =? b) = false /\ a <> b.
Proof. destruct (Z.eqb_spec a b); auto. Qed.

(** Case split on every integer test of the dispatch, keeping for each
    both the boolean equation and the equality or disequality it decides. *)
Ltac dispatch_cases :=
  repeat match goal with
  | |- context [?a =? ?b] =>
      let E := fresh "E" in let H := fresh "H" in
      destruct (eqb_cases a b) as [[E H] | [E H]]; rewrite E; simpl
  end.

Lemma handleMidiMessage_head (m : list byte) :
  exists special, handleMidiMessage m = Message (parseMidiMessage m) :: special.
Proof. unfold handleMidiMessage. eexists. reflexivity. Qed.

Lemma byteZ_range (b : byte) : 0 <= byteZ b <= 255.
Proof.
  unfold byteZ. pose proof (Byte.to_N_bounded b). lia.
Qed.

Lemma channel_low_nibble (m : list byte) :
  channel (parseMidiMessage m) = toInt32 (cell m 0) mod 16.
Proof.
  simpl. change 15 with (Z.ones 4). rewrite Z.land_ones by lia. reflexivity.
Qed.

Lemma command_high_nibble (m : list byte) :
  command (parseMidiMessage m) = toInt32 (cell m 0) / 16.
Proof. simpl. rewrite Z.shiftr_div_pow2 by lia. reflexivity. Qed.

(** C1. With command 8 or 9 on channel 0, 15 or 9 the listener emits,
    after the generic message, one button report (a note on channels 0 and
    15, a pad on channel 9) whose velocity is [value] for command 9 and
    [-value] for command 8, [value] being data byte 2 over 127. *)
Theorem velocity_sign (m : list byte) :
  let r := parseMidiMessage m in
  command r = 8 \/ command r = 9 ->
  channel r = 0 \/ channel r = 15 \/ channel r = 9 ->
  exists e,
    handleMidiMessage m = [Message r; e] /\
    (isNote e = true <-> channel r <> 9) /\
    (isPad e = true <-> channel r = 9) /\
    value r = (fun b => inject_Z (byteZ b) / inject_Z 127)%Q <$> m !! 2%nat /\
    (command r = 9 -> velocityOf e = Some (value r)) /\
    (command r = 8 -> velocityOf e = Some (Qopp <$> value r)).
Proof.
  intros r Hc Hch.
  assert (Hv : value r = (fun b => inject_Z (byteZ b) / inject_Z 127)%Q <$> m !! 2%nat).
  { subst r. simpl. unfold div127, cell. destruct (m !! 2%nat); reflexivity. }
  unfold handleMidiMessage. cbv zeta. fold r. clearbody r.
  destruct Hc as [Hc | Hc]; rewrite Hc; simpl;
    destruct Hch as [Hch | [Hch | Hch]]; rewrite Hch; simpl;
    eexists; (split; [reflexivity |]); simpl;
    repeat split; try (intros; congruence); try (intros; lia); auto.
Qed.

Lemma velocity_sign_witness :
  exists e,
    handleMidiMessage [x80; x3c; x40] =
      [Message (parseMidiMessage [x80; x3c; x40]); e] /\
    velocityOf e = Some (Some (- (64 # 127))%Q).
Proof.
  destruct (velocity_sign [x80; x3c; x40]) as (e & He & _ & _ & Hv & _ & Hoff).
  - left; reflexivity.
  - left; reflexivity.
  - exists e. split; [exact He |]. rewrite (Hoff eq_refl), Hv. reflexivity.
Defined.

(** C2. For every raw message (of 1 to 3 bytes, and of any other length
    too) the listener first emits the generic message with the parsed
    fields and then at most one specialised report, chosen by the table:
    a note iff the command is 8 or 9 on channel 0 or 15; a pad iff the
    command is 8 or 9 on channel 9; a mod wheel iff the command is 11 with
    code 1; a pitch bend iff the command is 14; otherwise nothing. *)
Theorem dispatch_table (m : list byte) :
  let r := parseMidiMessage m in
  exists special,
    handleMidiMessage m = Message r :: special /\
    (length special <= 1)%nat /\
    (existsb isNote special = true <->
       (command r = 8 \/ command r = 9) /\ (channel r = 0 \/ channel r = 15)) /\
    (existsb isPad special = true <->
       (command r = 8 \/ command r = 9) /\ channel r = 9) /\
    (existsb isModWheel special = true <->
       command r = 11 /\ code r = Some 1) /\
    (existsb isPitchBend special = true <-> command r = 14) /\
    existsb isMessage special = false /\
    existsb isInputChange special = false /\
    (forall e, special = [e] ->
       let velocity := if command r =? 9 then value r else neg (value r) in
       e = Note {| note_code := code r;
                   note_velocity := velocity;
                   frequency := noteCodeToFrequency ∘ IZR <$> code r |} \/
       e = Pad {| pad_code := code r; pad_velocity := velocity |} \/
       e = ModWheel {| scalar_value := value r |} \/
       e = PitchBend {| scalar_value := value r |}).
Proof.
  intros r. unfold handleMidiMessage. cbv zeta. fold r.
  assert (Hcode : strictEq (code r) 1 = true <-> code r = Some 1).
  { unfold strictEq. destruct (code r) as [k |]; [| split; discriminate].
    rewrite Z.eqb_eq. split; congruence. }
  clearbody r. eexists. split; [reflexivity |].
  destruct (strictEq (code r) 1) eqn:Ecode.
  - assert (code r = Some 1) by (apply Hcode; reflexivity).
    dispatch_cases;
      repeat split; intros; try discriminate; try lia; auto;
      try (exfalso; intuition lia);
      match goal with
      | Hs : [_] = [_] |- _ => inversion Hs; subst; simpl; auto
      | _ => idtac
      end.
  - assert (code r <> Some 1) by (intros Hk; apply Hcode in Hk; discriminate).
    dispatch_cases;
      repeat split; intros; try discriminate; try lia; auto;
      try (exfalso; intuition (lia || congruence));
      match goal with
      | Hs : [_] = [_] |- _ => inversion Hs; subst; simpl; auto
      | _ => idtac
      end.
Qed.

Lemma dispatch_table_witness :
  handleMidiMessage [xb0; x02; x40] =
    [Message (parseMidiMessage [xb0; x02; x40])].
Proof.
  destruct (dispatch_table [xb0; x02; x40])
    as (special & -> & Hlen & Hnote & Hpad & Hmod & Hbend & _ & _ & Hshape).
  f_equal. destruct special as [| e [| e' rest]]; [reflexivity | | simpl in Hlen; lia].
  exfalso.
  destruct (Hshape e eq_refl) as [-> | [-> | [-> | ->]]]; simpl in *.
  - destruct (proj1 Hnote eq_refl) as [[Hc | Hc] _]; discriminate Hc.
  - destruct (proj1 Hpad eq_refl) as [[Hc | Hc] _]; discriminate Hc.
  - destruct (proj1 Hmod eq_refl) as [_ Hc]; discriminate Hc.
  - discriminate (proj1 Hbend eq_refl).
Defined.

Example pad_on_40 :
  handleMidiMessage [x99; x28; x64] =
    [Message (parseMidiMessage [x99; x28; x64]);
     Pad {| pad_code := Some 40;
            pad_velocity := Some (inject_Z 100 / inject_Z 127)%Q |}].
Proof. reflexivity. Qed.

Example mod_wheel_64 :
  handleMidiMessage [xb0; x01; x40] =
    [Message (parseMidiMessage [xb0; x01; x40]);
     ModWheel {| scalar_value := Some (inject_Z 64 / inject_Z 127)%Q |}].
Proof. reflexivity. Qed.

Example pitch_bend_channel_3 :
  handleMidiMessage [xe3; x00; x7f] =
    [Message (parseMidiMessage [xe3; x00; x7f]);
     PitchBend {| scalar_value := Some (inject_Z 127 / inject_Z 127)%Q |}].
Proof. reflexivity. Qed.

Example note_on_60 :
  handleMidiMessage [x90; x3c; x7f] =
    [Message (parseMidiMessage [x90; x3c; x7f]); middleC].
Proof. reflexivity. Qed.

Example note_without_data :
  handleMidiMessage [x90] =
    [Message (parseMidiMessage [x90]);
     Note {| note_code := None; note_velocity := None; frequency := None |}].
Proof. reflexivity. Qed.

(** C4. Parsing never fails: on a message of 1 to 3 bytes the command and
    channel are the two nibbles of the status byte, the code is data byte 1
    or undefined when the message has fewer than 2 bytes, and the value is
    data byte 2 over 127 or NaN when it has fewer than 3 bytes; the
    handler still emits the generic message for such input. *)
Theorem parse_total (m : list byte) :
  (1 <= length m <= 3)%nat ->
  exists s, m !! 0%nat = Some s /\
    let r := parseMidiMessage m in
    data r = m /\
    command r = byteZ s / 16 /\
    channel r = byteZ s mod 16 /\
    code r = byteZ <$> m !! 1%nat /\
    value r = (fun b => inject_Z (byteZ b) / inject_Z 127)%Q <$> m !! 2%nat /\
    ((length m < 2)%nat -> code r = None) /\
    ((2 <= length m)%nat -> is_Some (code r)) /\
    ((length m < 3)%nat -> value r = None) /\
    (length m = 3%nat -> is_Some (value r)) /\
    exists special, handleMidiMessage m = Message r :: special.
Proof.
  intros Hlen.
  destruct m as [| s [| c [| v [| ? ?]]]]; simpl in Hlen; try lia;
    exists s; (split; [reflexivity |]); cbv zeta;
    rewrite command_high_nibble, channel_low_nibble;
    repeat split; simpl; try reflexivity; try lia; eauto;
    try (intros; lia); apply handleMidiMessage_head.
Qed.

Lemma parse_total_witness :
  code (parseMidiMessage [xb0]) = None /\
  value (parseMidiMessage [xb0]) = None /\
  command (parseMidiMessage [xb0]) = 11.
Proof.
  destruct (parse_total [xb0]) as (s & Hs & _ & Hc & _ & _ & _ & Hcode & _ & Hval & _).
  - simpl; lia.
  - split; [apply Hcode; simpl; lia |].
    split; [apply Hval; simpl; lia |].
    rewrite Hc. injection Hs as <-. reflexivity.
Defined.

(** C6 (amended). The conversion evaluates
    [440 * Math.pow(2, (code - 69) / 12)] in doubles.  With
    [Math.pow(x, 0) = 1] and [Math.pow(2, 1) = 2] it returns exactly 440 at
    code 69 and exactly 880 at code 81, so the frequency doubles from 69 to
    81.  Exact doubling over other octaves is not part of the statement:
    the lemma after the witness shows an octave where it fails. *)
Theorem frequency_reference_pitches (Math_pow : float -> float -> float) :
  (forall x, Math_pow x 0%float = 1%float) ->
  Math_pow 2%float 1%float = 2%float ->
  Double.noteCodeToFrequency Math_pow 69 = 440%float /\
  Double.noteCodeToFrequency Math_pow 81 = 880%float /\
  Double.noteCodeToFrequency Math_pow (69 + 12) =
    (2 * Double.noteCodeToFrequency Math_pow 69)%float.
Proof.
  intros Hzero Hone. unfold Double.noteCodeToFrequency.
  change ((69 + 12 - 69) / 12)%float with 1%float.
  change ((81 - 69) / 12)%float with 1%float.
  change ((69 - 69) / 12)%float with 0%float.
  rewrite Hzero, Hone. repeat split; reflexivity.
Qed.

Lemma frequency_reference_pitches_witness :
  Double.noteCodeToFrequency Double.Math_pow_rounded 69 = 440%float /\
  Double.noteCodeToFrequency Double.Math_pow_rounded 81 = 880%float /\
  Double.noteCodeToFrequency Double.Math_pow_rounded (69 + 12) =
    (2 * Double.noteCodeToFrequency Double.Math_pow_rounded 69)%float.
Proof.
  apply (frequency_reference_pitches Double.Math_pow_rounded).
  - intros x. reflexivity.
  - reflexivity.
Defined.

(** The octave from code 10 to code 22: the two sides of
    [frequency(code + 12) = 2 * frequency(code)] are different doubles,
    29.13523509488062 and 29.135235094880613. *)
Lemma octave_not_exact_in_doubles :
  Double.noteCodeToFrequency Double.Math_pow_rounded (10 + 12) =
    0x1.d229ec465c8a2p+4%float /\
  (2 * Double.noteCodeToFrequency Double.Math_pow_rounded 10)%float =
    0x1.d229ec465c8a0p+4%float /\
  (Double.noteCodeToFrequency Double.Math_pow_rounded (10 + 12) =?
     2 * Double.noteCodeToFrequency Double.Math_pow_rounded 10)%float = false.
Proof. repeat split; vm_compute; reflexivity. Qed.

(** C7. When the data bytes of a raw message are 7-bit (at most 127), the
    parsed value, if present, lies in [0, 1], the code, if present, in
    [0, 127], and the channel lies in [0, 15] whatever the bytes are. *)
Theorem parsed_ranges (m : list byte) :
  (forall i b, (1 <= i)%nat -> m !! i = Some b -> byteZ b <= 127) ->
  let r := parseMidiMessage m in
  (forall v, value r = Some v -> (0 <= v /\ v <= 1)%Q) /\
  0 <= channel r <= 15 /\
  (forall c, code r = Some c -> 0 <= c <= 127).
Proof.
  intros H7 r. subst r. split; [| split].
  - simpl. unfold div127, cell. intros v Hv.
    destruct (m !! 2%nat) as [b |] eqn:Eb; [| discriminate].
    simpl in Hv. injection Hv as <-.
    pose proof (H7 2%nat b ltac:(lia) Eb). pose proof (byteZ_range b).
    unfold Qle, Qdiv, Qmult, Qinv, inject_Z; simpl. lia.
  - rewrite channel_low_nibble.
    pose proof (Z.mod_pos_bound (toInt32 (cell m 0)) 16 ltac:(lia)). lia.
  - simpl. unfold cell. intros c Hc.
    destruct (m !! 1%nat) as [b |] eqn:Eb; [| discriminate].
    simpl in Hc. injection Hc as <-.
    pose proof (H7 1%nat b ltac:(lia) Eb). pose proof (byteZ_range b). lia.
Qed.

Lemma parsed_ranges_witness :
  let r := parseMidiMessage [x9f; x7f; x7f] in
  (forall v, value r = Some v -> (0 <= v /\ v <= 1)%Q) /\
  0 <= channel r <= 15 /\
  (forall c, code r = Some c -> 0 <= c <= 127).
Proof.
  apply (parsed_ranges [x9f; x7f; x7f]).
  intros [| [| [| i]]] b Hi Hb; simpl in Hb; try lia; try discriminate;
    injection Hb as <-; vm_compute; discriminate.
Defined.

(** * Properties of the input curator *)

Lemma curateLoop_spec (todo : list (string * MIDIInput)) :
  forall names n,
    curateLoop todo names n =
      ((fun kv => (kv.1, attach kv.2)) <$> todo,
       names ++ namesOf todo,
       (n + openCount todo)%nat).
Proof.
  induction todo as [| [key i] rest IH]; intros names n; simpl.
  - rewrite app_nil_r, Nat.add_0_r. reflexivity.
  - rewrite IH. unfold openCount, namesOf. rewrite filter_cons. simpl.
    rewrite <- app_assoc. simpl.
    destruct (isConnected (state i) && isOpen (connection i)) eqn:E.
    + rewrite decide_True by reflexivity. simpl.
      f_equal; try reflexivity; lia.
    + rewrite decide_False by discriminate. reflexivity.
Qed.

Lemma curateMidiInputs_spec (this : MidiListener) :
  curateMidiInputs this =
    let ins := inputs (access this) in
    let access' := {| inputs := (fun kv => (kv.1, attach kv.2)) <$> ins;
                      onstatechange := onstatechange (access this) |} in
    if strictNe (openCount ins) (numberOfOpenConnections this) then
      ({| access := access';
          numberOfOpenConnections := Some (openCount ins) |},
       [InputChange {| inputNames := namesOf ins |}])
    else
      ({| access := access';
          numberOfOpenConnections := numberOfOpenConnections this |}, []).
Proof.
  unfold curateMidiInputs. rewrite curateLoop_spec. reflexivity.
Qed.

Lemma openCount_attach (ins : list (string * MIDIInput)) :
  openCount ((fun kv => (kv.1, attach kv.2)) <$> ins) = openCount ins.
Proof.
  unfold openCount. induction ins as [| [k i] rest IH]; [reflexivity |].
  rewrite fmap_cons, !filter_cons. simpl.
  destruct (decide (isConnected (state i) && isOpen (connection i) = true));
    simpl; rewrite IH; reflexivity.
Qed.

Lemma strictNe_Some (a b : nat) :
  strictNe a (Some b) = if decide (a = b) then false else true.
Proof.
  simpl. destruct (Nat.eqb_spec a b); destruct (decide (a = b));
    simpl; congruence.
Qed.

Lemma notifications_spec (changes : list (list (string * MIDIInput))) :
  forall this n,
    onstatechange (access this) = Some CurateMidiInputs ->
    numberOfOpenConnections this = Some n ->
    notifications this changes = reportsAfter n changes.
Proof.
  induction changes as [| ins rest IH]; intros this n Hhook Hn; [reflexivity |].
  simpl. unfold statechange. simpl. rewrite Hhook.
  rewrite curateMidiInputs_spec. simpl. rewrite Hn, strictNe_Some.
  destruct (decide (openCount ins = n)) as [-> | Hne].
  - f_equal. apply IH; simpl; auto.
  - f_equal. apply IH; simpl; auto.
Qed.

(** C3. The first curation (the one the constructor runs) always reports
    the input change and stores its count.  A later curation, run with a
    stored count, reports the full list of current names and stores the new
    count when the two counts differ, and reports nothing and leaves the
    stored count alone when they agree.  Over a whole run the reports are
    therefore those of [reports]: always on the first call, afterwards
    exactly on a change of count. *)
Theorem curation_change_detection :
  (forall acc : MIDIAccess,
     exists this,
       new acc = (this, [InputChange {| inputNames := namesOf (inputs acc) |}]) /\
       numberOfOpenConnections this = Some (openCount (inputs acc)) /\
       onstatechange (access this) = Some CurateMidiInputs) /\
  (forall (this : MidiListener) (n : nat),
     numberOfOpenConnections this = Some n ->
     let ins := inputs (access this) in
     let '(this', emitted) := curateMidiInputs this in
     (openCount ins <> n ->
        emitted = [InputChange {| inputNames := namesOf ins |}] /\
        numberOfOpenConnections this' = Some (openCount ins)) /\
     (openCount ins = n ->
        emitted = [] /\ numberOfOpenConnections this' = Some n)) /\
  (forall (acc : MIDIAccess) (changes : list (list (string * MIDIInput))),
     run acc changes = reports (inputs acc) changes).
Proof.
  assert (Hnew : forall acc : MIDIAccess,
     exists this,
       new acc = (this, [InputChange {| inputNames := namesOf (inputs acc) |}]) /\
       numberOfOpenConnections this = Some (openCount (inputs acc)) /\
       onstatechange (access this) = Some CurateMidiInputs).
  { intros acc. unfold new. rewrite curateMidiInputs_spec. simpl.
    eexists. split; [reflexivity |]. split; reflexivity. }
  split; [exact Hnew |]. split.
  - intros this n Hn ins. rewrite curateMidiInputs_spec. cbv zeta. fold ins.
    rewrite Hn, strictNe_Some.
    destruct (decide (openCount ins = n)); simpl; split; intros; try congruence; auto.
  - intros acc changes. unfold run, reports.
    destruct (Hnew acc) as (this & -> & Hn & Hhook).
    f_equal. apply notifications_spec; assumption.
Qed.

Lemma curation_change_detection_witness :
  run noAccess [[keys; pads]; [pads; keys]; [unplugged; keys]] =
    [[InputChange {| inputNames := [] |}];
     [InputChange {| inputNames := ["keys"; "pads"]%string |}];
     [];
     [InputChange {| inputNames := ["old"; "keys"]%string |}]] /\
  (curateMidiInputs
     {| access := {| inputs := [pads; keys]; onstatechange := None |};
        numberOfOpenConnections := Some 2%nat |}).2 = [].
Proof.
  destruct curation_change_detection as (_ & Hstep & Hrun). split.
  - rewrite Hrun. reflexivity.
  - pose proof (Hstep
      {| access := {| inputs := [pads; keys]; onstatechange := None |};
         numberOfOpenConnections := Some 2%nat |} 2%nat eq_refl) as H.
    cbv zeta in H.
    destruct (curateMidiInputs _) as [this' emitted].
    destruct H as [_ H]. apply H. reflexivity.
Defined.

(** C9. Every curation, whether or not it reports a change, leaves every
    device of the input list with the classifier as its message handler
    (devices already wired included) and touches nothing else on them. *)
Theorem curation_attaches_handler (this : MidiListener) :
  let '(this', emitted) := curateMidiInputs this in
  inputs (access this') =
    (fun kv => (kv.1, attach kv.2)) <$> inputs (access this) /\
  Forall (fun kv => onmidimessage kv.2 = Some handleMidiMessage)
    (inputs (access this')) /\
  Forall2 (fun old new =>
      new.1 = old.1 /\ name new.2 = name old.2 /\ id new.2 = id old.2 /\
      state new.2 = state old.2 /\ connection new.2 = connection old.2)
    (inputs (access this)) (inputs (access this')).
Proof.
  rewrite curateMidiInputs_spec. cbv zeta.
  assert (Hall : forall ins : list (string * MIDIInput),
    Forall (fun kv => onmidimessage kv.2 = Some handleMidiMessage)
      ((fun kv => (kv.1, attach kv.2)) <$> ins)).
  { intros ins. apply Forall_fmap, Forall_forall. intros kv _. reflexivity. }
  assert (Hsame : forall ins : list (string * MIDIInput),
    Forall2 (fun old new =>
      new.1 = old.1 /\ name new.2 = name old.2 /\ id new.2 = id old.2 /\
      state new.2 = state old.2 /\ connection new.2 = connection old.2)
      ins ((fun kv => (kv.1, attach kv.2)) <$> ins)).
  { intros ins. apply Forall2_fmap_r, Forall_Forall2_diag, Forall_forall.
    intros kv _. repeat split. }
  destruct (strictNe _ _); simpl; auto.
Qed.

(** C10. A reported input change names every device of the access
    mapping, in enumeration order, whatever its state or connection; the
    list may therefore name devices that are not connected and open and be
    longer than the count used to detect the change. *)
Theorem input_names_all_devices :
  (forall (this this' : MidiListener) (emitted : list Event)
          (report : InputChangeReport),
     curateMidiInputs this = (this', emitted) ->
     InputChange report ∈ emitted ->
     inputNames report = (fun kv => name kv.2) <$> inputs (access this)) /\
  (exists (this this' : MidiListener) (report : InputChangeReport),
     curateMidiInputs this = (this', [InputChange report]) /\
     "old"%string ∈ inputNames report /\
     (openCount (inputs (access this)) < length (inputNames report))%nat).
Proof.
  split.
  - intros this this' emitted report Hc Hin.
    rewrite curateMidiInputs_spec in Hc. cbv zeta in Hc.
    destruct (strictNe _ _); injection Hc as <- <-.
    + apply list_elem_of_singleton in Hin. injection Hin as ->. reflexivity.
    + inversion Hin.
  - exists {| access := {| inputs := [unplugged; keys]; onstatechange := None |};
              numberOfOpenConnections := None |}.
    eexists. eexists. split; [reflexivity |]. split.
    + simpl. apply list_elem_of_here.
    + vm_compute. lia.
Qed.

Lemma input_names_all_devices_witness :
  inputNames {| inputNames := ["old"; "keys"]%string |} =
    (fun kv => name kv.2) <$> [unplugged; keys].
Proof.
  eapply (proj1 input_names_all_devices
            {| access := {| inputs := [unplugged; keys]; onstatechange := None |};
               numberOfOpenConnections := Some 5%nat |}).
  - reflexivity.
  - apply list_elem_of_here.
Defined.

(** * Properties of the callback registry *)

Lemma filter_ext_elem {F : Type} (P Q : F -> Prop)
    `{!forall x, Decision (P x), !forall x, Decision (Q x)} (l : list F) :
  (forall x, x ∈ l -> P x <-> Q x) -> filter P l = filter Q l.
Proof.
  induction l as [| x l IH]; intros Hpq; [reflexivity |].
  rewrite !filter_cons.
  rewrite IH by (intros y Hy; apply Hpq; right; exact Hy).
  pose proof (Hpq x (list_elem_of_here _ _)) as Hx.
  destruct (decide (P x)) as [Hp | Hp], (decide (Q x)) as [Hq | Hq];
    try reflexivity; exfalso; tauto.
Qed.

Lemma filter_all {F : Type} (P : F -> Prop) `{!forall x, Decision (P x)} (l : list F) :
  (forall x, x ∈ l -> P x) -> filter P l = l.
Proof.
  induction l as [| x l IH]; intros Hp; [reflexivity |].
  rewrite filter_cons, decide_True by (apply Hp; left).
  f_equal. apply IH. intros y Hy. apply Hp. right. exact Hy.
Qed.

Section CallerProperties.
Context {I F A : Type} `{EqDecision I} `{EqDecision F}.
Variable body : F -> A -> list (op I F A).
Implicit Types (h : Heap I F A) (this : I) (callback : F) (args : A).
Local Open Scope nat_scope.

(** *** Composition of runs *)

Lemma runs_nil h : runs body 0 [] h h.
Proof. intros fuel rest. reflexivity. Qed.

Lemma runs_app n1 n2 t1 t2 h h1 h2 :
  runs body n1 t1 h h1 -> runs body n2 t2 h1 h2 ->
  runs body (n1 + n2) (t1 ++ t2) h h2.
Proof.
  intros H1 H2 fuel rest.
  rewrite <- app_assoc, <- Nat.add_assoc, H1. apply H2.
Qed.

Lemma runs_done n todo h h' :
  runs body n todo h h' -> exec body n todo h = Some h'.
Proof.
  intros Hr. specialize (Hr 0 []). rewrite app_nil_r, Nat.add_0_r in Hr.
  rewrite Hr. reflexivity.
Qed.

Lemma runs_add this callback h :
  runs body 1 [Do (Add this callback)] h (add this callback h).
Proof. intros fuel rest. reflexivity. Qed.

Lemma runs_remove this callback h :
  runs body 1 [Do (Remove this callback)] h (remove this callback h).
Proof. intros fuel rest. reflexivity. Qed.

Lemma runs_clear this h : runs body 1 [Do (Clear this)] h (clear this h).
Proof. intros fuel rest. reflexivity. Qed.

Lemma runs_invoke n this args h h' :
  runs body n [ForOf (callbacks h this) 0 args] h h' ->
  runs body (S n) [Do (Invoke this args)] h h'.
Proof. intros Hr fuel rest. simpl. apply (Hr fuel rest). Qed.

(** The loop is over: the index has reached the length of the array. *)
Lemma runs_forOf_end array index args h (a : list F) :
  arrays h !! array = Some a -> length a <= index ->
  runs body 1 [ForOf array index args] h h.
Proof.
  intros Ha Hlen fuel rest. simpl. rewrite Ha. simpl.
  rewrite lookup_ge_None_2 by exact Hlen. reflexivity.
Qed.

(** One turn of the loop: the callback is applied, its body runs, and
    the loop resumes one index further on the same array. *)
Lemma runs_forOf_step n m array index args h h1 h2 (a : list F) callback :
  arrays h !! array = Some a -> a !! index = Some callback ->
  runs body n (Do <$> body callback args) (apply callback args h) h1 ->
  runs body m [ForOf array (S index) args] h1 h2 ->
  runs body (S (n + m)) [ForOf array index args] h h2.
Proof.
  intros Ha Hi Hbody Hloop fuel rest. simpl. rewrite Ha. simpl. rewrite Hi.
  rewrite <- Nat.add_assoc, Hbody. apply (Hloop fuel rest).
Qed.

(** *** The effect of the methods on what is subscribed *)

Lemma subscribed_remove this callback h i :
  wf h ->
  subscribed (remove this callback h) i =
    if decide (this = i)
    then filter (fun cb => cb <> callback) (subscribed h this)
    else subscribed h i.
Proof.
  intros [Hlt _]. unfold subscribed at 1. simpl.
  destruct (decide (this = i)) as [<- | Hne].
  - rewrite fn_lookup_insert.
    apply list_lookup_total_middle. reflexivity.
  - rewrite fn_lookup_insert_ne by exact Hne.
    apply lookup_total_app_l, Hlt.
Qed.

Lemma subscribed_clear this h i :
  wf h ->
  subscribed (clear this h) i =
    if decide (this = i) then [] else subscribed h i.
Proof.
  intros [Hlt _]. unfold subscribed at 1. simpl.
  destruct (decide (this = i)) as [<- | Hne].
  - rewrite fn_lookup_insert.
    apply list_lookup_total_middle. reflexivity.
  - rewrite fn_lookup_insert_ne by exact Hne.
    apply lookup_total_app_l, Hlt.
Qed.

Lemma subscribed_add this callback h i :
  wf h ->
  subscribed (add this callback h) i =
    if decide (this = i) then subscribed h this ++ [callback]
    else subscribed h i.
Proof.
  intros [Hlt Hinj]. unfold subscribed. simpl.
  destruct (decide (this = i)) as [<- | Hne].
  - rewrite list_lookup_total_alter_eq by apply Hlt. reflexivity.
  - apply list_lookup_total_alter_ne. intros Heq. apply Hne, Hinj, Heq.
Qed.

Lemma wf_fresh (l : list F) this h :
  wf h ->
  wf {| arrays := arrays h ++ [l];
        callbacks := <[this := length (arrays h)]> (callbacks h);
        calls := calls h |}.
Proof.
  intros [Hlt Hinj]. split; simpl.
  - intros i. rewrite length_app. simpl.
    destruct (decide (this = i)) as [<- | Hne].
    + rewrite fn_lookup_insert. lia.
    + rewrite fn_lookup_insert_ne by exact Hne. specialize (Hlt i). lia.
  - intros i j.
    destruct (decide (this = i)) as [<- | Hi], (decide (this = j)) as [<- | Hj];
      rewrite ?fn_lookup_insert, ?fn_lookup_insert_ne by assumption;
      auto.
    + intros Heq. specialize (Hlt j). lia.
    + intros Heq. specialize (Hlt i). lia.
Qed.

Lemma wf_remove this callback h : wf h -> wf (remove this callback h).
Proof. apply wf_fresh. Qed.

Lemma wf_clear this h : wf h -> wf (clear this h).
Proof. apply wf_fresh. Qed.

Lemma wf_add this callback h : wf h -> wf (add this callback h).
Proof.
  intros [Hlt Hinj]. split; simpl; [| exact Hinj].
  intros i. rewrite length_alter. apply Hlt.
Qed.

Lemma wf_apply callback args h : wf h -> wf (apply callback args h).
Proof. intros Hwf. exact Hwf. Qed.
End CallerProperties.

Section InvokeProperties.
Context {I F A : Type} `{EqDecision I} `{EqDecision F}.
Variable body : F -> A -> list (op I F A).
Implicit Types (h : Heap I F A) (this : I) (callback : F) (args : A).
Local Open Scope nat_scope.

Lemma subscribed_lookup h this :
  wf h -> arrays h !! callbacks h this = Some (subscribed h this).
Proof. intros [Hlt _]. apply list_lookup_lookup_total_lt, Hlt. Qed.

(** The loop of [invoke] over callbacks that either do nothing to the
    registry or unsubscribe themselves from it.  The array under the
    loop is never written: each [remove] stores a new one.  So the loop
    applies every remaining callback, and when it ends those that
    unsubscribed are gone from what is subscribed. *)
Lemma forOf_self_removing this args (unsub : F -> bool) array :
  forall (rest pre : list F) h,
    wf h ->
    arrays h !! array = Some (pre ++ rest) ->
    (forall f, f ∈ rest ->
       body f args = if unsub f then [Remove this f] else []) ->
    exists n h',
      runs body n [ForOf array (length pre) args] h h' /\
      wf h' /\
      calls h' = calls h ++ ((fun f => (f, args)) <$> rest) /\
      subscribed h' this =
        filter (fun g => ~ (unsub g = true /\ g ∈ rest)) (subscribed h this) /\
      (forall i, i <> this -> subscribed h' i = subscribed h i).
Proof.
  induction rest as [| f rest IH]; intros pre h Hwf Ha Hbody.
  - exists 1, h. split; [| split; [exact Hwf | split; [| split]]].
    + eapply runs_forOf_end; [exact Ha |]. rewrite app_nil_r. lia.
    + simpl. rewrite app_nil_r. reflexivity.
    + symmetry. apply filter_all. intros x _ [_ Hin]. inversion Hin.
    + reflexivity.
  - assert (Hf : (pre ++ f :: rest) !! length pre = Some f)
      by (apply list_lookup_middle; reflexivity).
    assert (Harr : array < length (arrays h))
      by (eapply lookup_lt_Some; exact Ha).
    pose proof (Hbody f (list_elem_of_here _ _)) as Hbf.
    destruct (unsub f) eqn:Eu.
    + set (h1 := remove this f (apply f args h)).
      assert (Hwf1 : wf h1) by (apply wf_remove, wf_apply, Hwf).
      destruct (IH (pre ++ [f]) h1 Hwf1) as (n & h' & Hr & Hwf' & Hc & Hs & Hfr).
      { subst h1. simpl. rewrite lookup_app_l by exact Harr.
        rewrite <- app_assoc. exact Ha. }
      { intros g Hg. apply Hbody. right. exact Hg. }
      rewrite length_app, Nat.add_1_r in Hr.
      exists (S (1 + n)), h'. split; [| split; [exact Hwf' | split; [| split]]].
      * eapply runs_forOf_step; [exact Ha | exact Hf | | exact Hr].
        rewrite Hbf. apply runs_remove.
      * rewrite Hc. subst h1. simpl. rewrite <- app_assoc. reflexivity.
      * rewrite Hs. subst h1.
        rewrite subscribed_remove by (apply wf_apply, Hwf).
        rewrite decide_True by reflexivity.
        change (subscribed (apply f args h) this) with (subscribed h this).
        rewrite list_filter_filter. apply list_filter_iff. intros g.
        rewrite elem_of_cons. split.
        -- intros [Hn Hne] [Hu [-> | Hin]]; [apply Hne; reflexivity | apply Hn; auto].
        -- intros Hn. split; [intros [Hu Hin]; apply Hn; auto |].
           intros ->. apply Hn. split; [exact Eu | left; reflexivity].
      * intros i Hi. rewrite (Hfr i Hi). subst h1.
        rewrite subscribed_remove by (apply wf_apply, Hwf).
        rewrite decide_False by (intros Heq; apply Hi; symmetry; exact Heq).
        reflexivity.
    + set (h1 := apply f args h).
      assert (Hwf1 : wf h1) by (apply wf_apply, Hwf).
      destruct (IH (pre ++ [f]) h1 Hwf1) as (n & h' & Hr & Hwf' & Hc & Hs & Hfr).
      { subst h1. simpl. rewrite <- app_assoc. exact Ha. }
      { intros g Hg. apply Hbody. right. exact Hg. }
      rewrite length_app, Nat.add_1_r in Hr.
      exists (S (0 + n)), h'. split; [| split; [exact Hwf' | split; [| split]]].
      * eapply runs_forOf_step; [exact Ha | exact Hf | | exact Hr].
        rewrite Hbf. apply runs_nil.
      * rewrite Hc. subst h1. simpl. rewrite <- app_assoc. reflexivity.
      * rewrite Hs. subst h1.
        change (subscribed (apply f args h) this) with (subscribed h this).
        apply list_filter_iff. intros g. rewrite elem_of_cons. split.
        -- intros Hn [Hu [-> | Hin]]; [congruence | apply Hn; auto].
        -- intros Hn [Hu Hin]. apply Hn. auto.
      * intros i Hi. rewrite (Hfr i Hi). reflexivity.
Qed.

(** [invoke] on a registry whose callbacks do nothing to it or
    unsubscribe themselves. *)
Lemma invoke_self_removing this args (unsub : F -> bool) h :
  wf h ->
  (forall f, f ∈ subscribed h this ->
     body f args = if unsub f then [Remove this f] else []) ->
  exists fuel h',
    invoke body fuel this args h = Some h' /\
    wf h' /\
    calls h' = calls h ++ ((fun f => (f, args)) <$> subscribed h this) /\
    subscribed h' this =
      filter (fun g => unsub g = false) (subscribed h this) /\
    (forall i, i <> this -> subscribed h' i = subscribed h i).
Proof.
  intros Hwf Hbody.
  destruct (forOf_self_removing this args unsub (callbacks h this)
              (subscribed h this) [] h Hwf (subscribed_lookup h this Hwf) Hbody)
    as (n & h' & Hr & Hwf' & Hc & Hs & Hfr).
  exists (S n), h'. split; [| split; [exact Hwf' | split; [exact Hc | split; [| exact Hfr]]]].
  - unfold invoke. apply runs_done, runs_invoke, Hr.
  - rewrite Hs. apply filter_ext_elem. intros g Hg. split.
    + intros Hn. destruct (unsub g); [exfalso; apply Hn; auto | reflexivity].
    + intros Hu [Hu' _]. congruence.
Qed.

(** C5. Let the callbacks subscribed to a registry be such that each
    either leaves the registry alone or unsubscribes itself while it
    runs, and let [c] be one that unsubscribes itself.  Then [invoke]
    returns; it has applied every subscribed callback, in order, those
    after [c] included; [c] is no longer subscribed while the callbacks
    that did not unsubscribe still are; and the next [invoke] returns
    and applies exactly the callbacks still subscribed, never [c]. *)
Theorem unsubscribe_during_invoke this (c : F) args args'
    (unsub : F -> bool) h :
  wf h ->
  unsub c = true ->
  (forall f a, f ∈ subscribed h this ->
     body f a = if unsub f then [Remove this f] else []) ->
  exists fuel h1,
    invoke body fuel this args h = Some h1 /\
    calls h1 = calls h ++ ((fun f => (f, args)) <$> subscribed h this) /\
    subscribed h1 this = filter (fun g => unsub g = false) (subscribed h this) /\
    (c ∉ subscribed h1 this) /\
    (forall i, i <> this -> subscribed h1 i = subscribed h i) /\
    exists fuel' h2,
      invoke body fuel' this args' h1 = Some h2 /\
      calls h2 = calls h1 ++ ((fun f => (f, args')) <$> subscribed h1 this) /\
      (forall a, (c, a) ∉ drop (length (calls h1)) (calls h2)) /\
      subscribed h2 this = subscribed h1 this.
Proof.
  intros Hwf Hc Hbody.
  destruct (invoke_self_removing this args unsub h Hwf
              (fun f Hf => Hbody f args Hf))
    as (fuel & h1 & Hrun & Hwf1 & Hcalls & Hsub & Hframe).
  assert (Hgone : c ∉ subscribed h1 this).
  { rewrite Hsub. intros Hin. apply list_elem_of_filter in Hin as [Hu _].
    congruence. }
  exists fuel, h1.
  split; [exact Hrun |]. split; [exact Hcalls |]. split; [exact Hsub |].
  split; [exact Hgone |]. split; [exact Hframe |].
  destruct (invoke_self_removing this args' unsub h1 Hwf1)
    as (fuel' & h2 & Hrun2 & Hwf2 & Hcalls2 & Hsub2 & _).
  { intros f Hf. apply Hbody. rewrite Hsub in Hf.
    apply list_elem_of_filter in Hf as [_ Hf]. exact Hf. }
  exists fuel', h2.
  split; [exact Hrun2 |]. split; [exact Hcalls2 |]. split.
  - intros a Hin. rewrite Hcalls2, drop_app_length in Hin.
    apply list_elem_of_fmap in Hin as (g & Heq & Hg).
    injection Heq as <- _. contradiction.
  - rewrite Hsub2. rewrite Hsub at 2. rewrite Hsub.
    rewrite list_filter_filter. apply list_filter_iff. tauto.
Qed.
End InvokeProperties.

(** * Properties of [subscribe] *)

Section SubscribeProperties.
Context {F : Type} `{EqDecision F}.
Variable body : F -> Event -> list (op EventName F Event).
Implicit Types (h : Heap EventName F Event) (e : EventName).
Implicit Types (callbacks : @MidiListenerEventCallbacks F).
Local Open Scope nat_scope.

Lemma wf_newEvents : wf (@newEvents F).
Proof.
  split.
  - intros []; simpl; lia.
  - intros [] []; simpl; intros Heq; try reflexivity; discriminate.
Qed.

Lemma NoDup_eventNames : NoDup eventNames.
Proof. apply (bool_decide_unpack _). vm_compute. exact I. Qed.

Lemma elem_of_eventNames e : e ∈ eventNames.
Proof. destruct e; apply (bool_decide_unpack _); vm_compute; exact I. Qed.

(** The loop of the revoking function, over any keys without repeats. *)
Lemma revoke_loop callbacks (es : list EventName) :
  NoDup es ->
  forall h, wf h ->
  exists n h',
    runs body n (Do <$> omap (fun e => Remove e <$> callbacks e) es) h h' /\
    wf h' /\ calls h' = calls h /\
    forall e,
      subscribed h' e =
        match (if decide (e ∈ es) then callbacks e else None) with
        | Some f => filter (fun cb => cb <> f) (subscribed h e)
        | None => subscribed h e
        end.
Proof.
  induction es as [| e0 es IH]; intros Hnd h Hwf.
  - exists 0, h. split; [apply runs_nil |]. split; [exact Hwf |].
    split; [reflexivity |]. intros e.
    rewrite decide_False by apply not_elem_of_nil. reflexivity.
  - apply list.NoDup_cons in Hnd as [Hnin Hnd]. simpl.
    destruct (callbacks e0) as [f |] eqn:Ecb; simpl.
    + destruct (IH Hnd (remove e0 f h) (wf_remove e0 f h Hwf))
        as (n & h' & Hr & Hwf' & Hc & Hs).
      exists (1 + n), h'. split; [| split; [exact Hwf' | split; [exact Hc |]]].
      * eapply (runs_app body 1 n [Do (Remove e0 f)]); [apply runs_remove | exact Hr].
      * intros e. rewrite Hs, subscribed_remove by exact Hwf.
        destruct (decide (e0 = e)) as [<- | Hne].
        -- rewrite decide_False by exact Hnin.
           rewrite decide_True by left. rewrite Ecb. reflexivity.
        -- destruct (decide (e ∈ es)) as [Hin | Hout].
           ++ rewrite decide_True by (right; exact Hin). reflexivity.
           ++ rewrite decide_False; [reflexivity |].
              rewrite elem_of_cons. intros [-> | Hin]; [apply Hne; reflexivity | apply Hout, Hin].
    + destruct (IH Hnd h Hwf) as (n & h' & Hr & Hwf' & Hc & Hs).
      exists n, h'. split; [exact Hr |]. split; [exact Hwf' |].
      split; [exact Hc |]. intros e. rewrite Hs.
      destruct (decide (e ∈ es)) as [Hin | Hout].
      * rewrite decide_True by (right; exact Hin). reflexivity.
      * destruct (decide (e ∈ e0 :: es)) as [Hin' | _]; [| reflexivity].
        apply elem_of_cons in Hin' as [-> | Hin]; [| contradiction].
        rewrite Ecb. reflexivity.
Qed.

(** The loop of [subscribe], over any keys without repeats. *)
Lemma subscribe_loop callbacks (es : list EventName) :
  NoDup es ->
  forall h, wf h ->
  exists n h',
    runs body n (Do <$> omap (fun e => Add e <$> callbacks e) es) h h' /\
    wf h' /\ calls h' = calls h /\
    forall e,
      subscribed h' e =
        subscribed h e ++
          option_list (if decide (e ∈ es) then callbacks e else None).
Proof.
  induction es as [| e0 es IH]; intros Hnd h Hwf.
  - exists 0, h. split; [apply runs_nil |]. split; [exact Hwf |].
    split; [reflexivity |]. intros e.
    rewrite decide_False by apply not_elem_of_nil. simpl.
    rewrite app_nil_r. reflexivity.
  - apply list.NoDup_cons in Hnd as [Hnin Hnd]. simpl.
    destruct (callbacks e0) as [f |] eqn:Ecb; simpl.
    + destruct (IH Hnd (add e0 f h) (wf_add e0 f h Hwf))
        as (n & h' & Hr & Hwf' & Hc & Hs).
      exists (1 + n), h'. split; [| split; [exact Hwf' | split; [exact Hc |]]].
      * eapply (runs_app body 1 n [Do (Add e0 f)]); [apply runs_add | exact Hr].
      * intros e. rewrite Hs, subscribed_add by exact Hwf.
        destruct (decide (e0 = e)) as [<- | Hne].
        -- rewrite decide_False by exact Hnin.
           rewrite decide_True by left. rewrite Ecb. simpl.
           rewrite app_nil_r. reflexivity.
        -- destruct (decide (e ∈ es)) as [Hin | Hout].
           ++ rewrite decide_True by (right; exact Hin). reflexivity.
           ++ rewrite decide_False; [reflexivity |].
              rewrite elem_of_cons. intros [-> | Hin]; [apply Hne; reflexivity | apply Hout, Hin].
    + destruct (IH Hnd h Hwf) as (n & h' & Hr & Hwf' & Hc & Hs).
      exists n, h'. split; [exact Hr |]. split; [exact Hwf' |].
      split; [exact Hc |]. intros e. rewrite Hs.
      destruct (decide (e ∈ es)) as [Hin | Hout].
      * rewrite decide_True by (right; exact Hin). reflexivity.
      * destruct (decide (e ∈ e0 :: es)) as [Hin' | _]; [| reflexivity].
        apply elem_of_cons in Hin' as [-> | Hin]; [| contradiction].
        rewrite Ecb. reflexivity.
Qed.

End SubscribeProperties.

(** * The sample subscribers *)

Lemma wf_sampleEvents : wf sampleEvents.
Proof. repeat apply wf_add. apply wf_newEvents. Qed.

Lemma sampleBody_self_removing (f : nat) (report : Event) :
  sampleBody f report =
    if (f =? 1)%nat then [Remove onNote f] else [].
Proof.
  unfold sampleBody. destruct (Nat.eqb_spec f 1) as [-> | _]; reflexivity.
Qed.

(** [push] writes the array under the loop: a callback subscribed during
    [invoke] is applied by the same [invoke]. *)
Example subscribed_during_invoke_runs :
  (fun h => (fst <$> calls h, subscribed h onPad)) <$>
    invoke addingBody 5 onPad padHit (add onPad 0%nat newEvents) =
  Some ([0; 9]%nat, [0; 9]%nat).
Proof. reflexivity. Qed.

(** [filter] does not: a callback unsubscribed during [invoke] leaves the
    loop as it was. *)
Example unsubscribed_during_invoke_runs :
  (fun h => (fst <$> calls h, subscribed h onNote)) <$>
    invoke sampleBody 6 onNote padHit sampleEvents =
  Some ([0; 1; 2]%nat, [0; 2]%nat).
Proof. reflexivity. Qed.

Example invoke_out_of_fuel :
  invoke sampleBody 5 onNote padHit sampleEvents = None.
Proof. reflexivity. Qed.

Lemma unsubscribe_during_invoke_witness :
  exists fuel h1,
    invoke sampleBody fuel onNote middleC sampleEvents = Some h1 /\
    fst <$> calls h1 = [0; 1; 2]%nat /\
    subscribed h1 onNote = [0; 2]%nat /\
    exists fuel' h2,
      invoke sampleBody fuel' onNote middleC h1 = Some h2 /\
      fst <$> drop (length (calls h1)) (calls h2) = [0; 2]%nat.
Proof.
  destruct (unsubscribe_during_invoke sampleBody onNote 1%nat middleC middleC
              (fun f => (f =? 1)%nat) sampleEvents wf_sampleEvents eq_refl
              (fun f a _ => sampleBody_self_removing f a))
    as (fuel & h1 & Hrun & Hcalls & Hsub & _ & _ & fuel' & h2 & Hrun2 & Hcalls2 & _).
  exists fuel, h1. split; [exact Hrun |].
  split; [rewrite Hcalls; reflexivity |].
  split; [rewrite Hsub; reflexivity |].
  exists fuel', h2. split; [exact Hrun2 |].
  rewrite Hcalls2, drop_app_length, Hsub. reflexivity.
Defined.





(** * Further properties of the message classifier *)

Lemma cell_take (m : list byte) (i : nat) :
  (i < 3)%nat -> cell (take 3 m) i = cell m i.
Proof. intros Hi. unfold cell. rewrite lookup_take_lt by exact Hi. reflexivity. Qed.

(** X1. The two nibbles put the status byte back together: command and
    channel both lie in 0..15 and [16 * command + channel] is the status
    byte. *)
Theorem status_byte_round_trip (s : byte) (rest : list byte) :
  let r := parseMidiMessage (s :: rest) in
  0 <= command r <= 15 /\
  0 <= channel r <= 15 /\
  16 * command r + channel r = byteZ s.
Proof.
  cbv zeta. rewrite command_high_nibble, channel_low_nibble. simpl.
  pose proof (byteZ_range s) as Hs.
  pose proof (Z.div_mod (byteZ s) 16 ltac:(lia)) as Hdm.
  pose proof (Z.mod_pos_bound (byteZ s) 16 ltac:(lia)) as Hm.
  split; [| split; [lia | lia]].
  split; [apply Z.div_pos; lia |].
  apply Z.lt_succ_r. apply Z.div_lt_upper_bound; lia.
Qed.

(** X2. Bytes after the third are never read: a longer message is parsed
    and dispatched as its first three bytes are (only the [data] field of
    the generic report still holds every byte). *)
Theorem only_first_three_bytes (m : list byte) :
  let r := parseMidiMessage m in
  let r3 := parseMidiMessage (take 3 m) in
  command r = command r3 /\ channel r = channel r3 /\
  code r = code r3 /\ value r = value r3 /\
  data r = m /\
  tail (handleMidiMessage m) = tail (handleMidiMessage (take 3 m)).
Proof.
  cbv zeta. unfold handleMidiMessage. simpl.
  rewrite !cell_take by lia. repeat split; reflexivity.
Qed.

Lemma div127_nonneg (b : Z) : 0 <= b -> (0 <= inject_Z b / inject_Z 127)%Q.
Proof. intros Hb. unfold Qle, Qdiv, Qmult, Qinv, inject_Z; simpl. lia. Qed.

(** X3. Without the 7-bit assumption the value only lies in [0, 255/127]:
    a value is present exactly when there is a third byte, and it is at
    most 1 exactly when that byte is at most 127. *)
Theorem value_bound (m : list byte) (v : Q) :
  value (parseMidiMessage m) = Some v ->
  exists b, m !! 2%nat = Some b /\
    (0 <= v)%Q /\ (v <= 255 # 127)%Q /\
    ((v <= 1)%Q <-> byteZ b <= 127).
Proof.
  simpl. unfold div127, cell. intros Hv.
  destruct (m !! 2%nat) as [b |]; [| discriminate].
  simpl in Hv. injection Hv as <-. exists b.
  pose proof (byteZ_range b) as Hb.
  split; [reflexivity |].
  split; [apply div127_nonneg; lia |].
  unfold Qle, Qdiv, Qmult, Qinv, inject_Z; simpl.
  split; [lia |]. split; lia.
Qed.

Lemma value_bound_witness :
  exists b, [x90; x3c; xff] !! 2%nat = Some b /\
    (0 <= inject_Z 255 / inject_Z 127)%Q /\
    (inject_Z 255 / inject_Z 127 <= 255 # 127)%Q /\
    ((inject_Z 255 / inject_Z 127 <= 1)%Q <-> byteZ b <= 127).
Proof.
  apply (value_bound [x90; x3c; xff]). reflexivity.
Defined.

(** X4. A press never has negative velocity and a release never positive
    velocity: for a message of at least three bytes with command 8 or 9 on
    channel 0, 15 or 9, the button report carries a number that is at least
    0 for command 9 and at most 0 for command 8, and that is 0 exactly when
    data byte 2 is 0 (whatever the command). *)
Theorem velocity_sign_bounds (s c v : byte) (rest : list byte) :
  let m := s :: c :: v :: rest in
  let r := parseMidiMessage m in
  command r = 8 \/ command r = 9 ->
  channel r = 0 \/ channel r = 15 \/ channel r = 9 ->
  exists e q,
    handleMidiMessage m = [Message r; e] /\
    velocityOf e = Some (Some q) /\
    (command r = 9 -> (0 <= q)%Q) /\
    (command r = 8 -> (q <= 0)%Q) /\
    ((q == 0)%Q <-> byteZ v = 0).
Proof.
  intros m r Hc Hch.
  pose proof (byteZ_range v) as Hv.
  assert (Hval : value r = Some (inject_Z (byteZ v) / inject_Z 127)%Q)
    by reflexivity.
  assert (Hz : forall q : Z, ((inject_Z q / inject_Z 127 == 0)%Q <-> q = 0) /\
                             ((- (inject_Z q / inject_Z 127) == 0)%Q <-> q = 0) /\
                             (0 <= q -> (- (inject_Z q / inject_Z 127) <= 0)%Q)).
  { intros q. unfold Qeq, Qle, Qopp, Qdiv, Qmult, Qinv, inject_Z; simpl.
    repeat split; lia. }
  unfold handleMidiMessage. cbv zeta. fold m. fold r. rewrite Hval.
  clearbody r. clear Hval.
  destruct Hc as [Hc | Hc]; rewrite Hc; simpl;
    destruct Hch as [Hch | [Hch | Hch]]; rewrite Hch; simpl;
    eexists; eexists; (split; [reflexivity |]); simpl;
    (split; [reflexivity |]);
    repeat split; try (intros; discriminate);
    try (intros _; apply div127_nonneg; lia);
    try (intros _; apply Hz; lia);
    try apply Hz.
Qed.

Lemma velocity_sign_bounds_witness :
  exists e q,
    handleMidiMessage [x89; x28; x00] =
      [Message (parseMidiMessage [x89; x28; x00]); e] /\
    velocityOf e = Some (Some q) /\ (q <= 0)%Q /\ (q == 0)%Q.
Proof.
  destruct (velocity_sign_bounds x89 x28 x00 [])
    as (e & q & He & Hq & _ & Hoff & Hzero).
  - left; reflexivity.
  - right; right; reflexivity.
  - exists e, q. split; [exact He |]. split; [exact Hq |].
    split; [apply Hoff; reflexivity | apply Hzero; reflexivity].
Defined.

(** X5. Pitch bend keeps only data byte 2: two pitch-bend messages with
    the same status and the same second data byte emit the same report,
    whatever their first data byte (the low seven bits of the bend) is. *)
Theorem pitch_bend_ignores_first_data_byte (s c c' v : byte) :
  command (parseMidiMessage [s]) = 14 ->
  tail (handleMidiMessage [s; c; v]) =
    [PitchBend {| scalar_value := Some (inject_Z (byteZ v) / inject_Z 127)%Q |}] /\
  tail (handleMidiMessage [s; c'; v]) = tail (handleMidiMessage [s; c; v]).
Proof.
  intros Hc. unfold handleMidiMessage. cbv zeta.
  change (command (parseMidiMessage [s; c; v])) with (command (parseMidiMessage [s])).
  change (command (parseMidiMessage [s; c'; v])) with (command (parseMidiMessage [s])).
  rewrite Hc. split; reflexivity.
Qed.

Lemma pitch_bend_ignores_first_data_byte_witness :
  tail (handleMidiMessage [xe0; x7f; x40]) = tail (handleMidiMessage [xe0; x00; x40]).
Proof.
  apply (pitch_bend_ignores_first_data_byte xe0 x00 x7f x40). reflexivity.
Defined.

(** X6. A note report does not say which channel it came from: the same
    command and data bytes on channel 0 and on channel 15 emit the same
    note report. *)
Theorem note_channels_indistinguishable (s s' : byte) (rest : list byte) :
  let r := parseMidiMessage (s :: rest) in
  let r' := parseMidiMessage (s' :: rest) in
  command r = 8 \/ command r = 9 ->
  command r' = command r ->
  channel r = 0 -> channel r' = 15 ->
  tail (handleMidiMessage (s' :: rest)) = tail (handleMidiMessage (s :: rest)) /\
  exists n, tail (handleMidiMessage (s :: rest)) = [Note n].
Proof.
  intros r r' Hc Hcc Hch Hch'.
  unfold handleMidiMessage. cbv zeta. fold r. fold r'.
  assert (Hcode : code r' = code r) by reflexivity.
  assert (Hvalue : value r' = value r) by reflexivity.
  rewrite Hcc, Hch, Hch', Hcode, Hvalue. clearbody r r'.
  destruct Hc as [-> | ->]; simpl; split; try reflexivity; eexists; reflexivity.
Qed.

Lemma note_channels_indistinguishable_witness :
  tail (handleMidiMessage [x9f; x3c; x40]) = tail (handleMidiMessage [x90; x3c; x40]).
Proof.
  apply (note_channels_indistinguishable x90 x9f [x3c; x40]);
    solve [reflexivity | right; reflexivity].
Defined.

(** * Further properties of the input curator *)

Lemma attach_fmap_idemp (ins : list (string * MIDIInput)) :
  (fun kv => (kv.1, attach kv.2)) <$> ((fun kv => (kv.1, attach kv.2)) <$> ins) =
  (fun kv => (kv.1, attach kv.2)) <$> ins.
Proof.
  rewrite <- list_fmap_compose. apply list_fmap_ext. intros _ [k i] _. reflexivity.
Qed.

Lemma strictNe_refl (n : nat) : strictNe n (Some n) = false.
Proof. rewrite strictNe_Some, decide_True by reflexivity. reflexivity. Qed.

Lemma openCount_le_length (ins : list (string * MIDIInput)) :
  (openCount ins <= length ins)%nat.
Proof. unfold openCount. apply length_filter. Qed.

Lemma curateMidiInputs_stored (this : MidiListener) :
  numberOfOpenConnections (curateMidiInputs this).1 =
    Some (openCount (inputs (access this))).
Proof.
  rewrite curateMidiInputs_spec. cbv zeta.
  destruct (strictNe _ _) eqn:E; [reflexivity |]. simpl.
  destruct (numberOfOpenConnections this) as [n |]; [| discriminate].
  rewrite strictNe_Some in E.
  destruct (decide (openCount (inputs (access this)) = n)); congruence.
Qed.

(** X9. After any curation, from any listener state, the stored count is
    the number of connected, open devices among the listener's inputs, and
    that number is at most the number of names a report would carry. *)
Theorem curation_stores_open_count (this : MidiListener) :
  let '(this', emitted) := curateMidiInputs this in
  numberOfOpenConnections this' = Some (openCount (inputs (access this'))) /\
  openCount (inputs (access this')) = openCount (inputs (access this)) /\
  (openCount (inputs (access this)) <= length (namesOf (inputs (access this))))%nat /\
  (length emitted <= 1)%nat.
Proof.
  rewrite curateMidiInputs_spec. cbv zeta.
  pose proof (openCount_le_length (inputs (access this))) as Hle.
  unfold namesOf. rewrite length_fmap.
  destruct (strictNe _ _) eqn:E; simpl; rewrite openCount_attach;
    repeat split; auto.
  destruct (numberOfOpenConnections this) as [n |]; [| discriminate].
  rewrite strictNe_Some in E.
  destruct (decide (openCount (inputs (access this)) = n)); congruence.
Qed.

(** X10. Curation is idempotent: run again on the listener a curation
    left, with the devices unchanged, it reports nothing and leaves the
    listener exactly as it was. *)
Theorem curation_idempotent (this : MidiListener) :
  let '(this', emitted) := curateMidiInputs this in
  curateMidiInputs this' = (this', []).
Proof.
  pose proof (curateMidiInputs_stored this) as Hstored.
  destruct (curateMidiInputs this) as [this' emitted] eqn:E.
  rewrite curateMidiInputs_spec in E. cbv zeta in E.
  destruct (strictNe _ _); injection E as <- <-; simpl in Hstored;
    rewrite curateMidiInputs_spec; cbv zeta;
    cbn [access inputs numberOfOpenConnections onstatechange].
  - rewrite openCount_attach, strictNe_refl, attach_fmap_idemp. reflexivity.
  - rewrite Hstored, openCount_attach, strictNe_refl, attach_fmap_idemp.
    reflexivity.
Qed.

(** * Further properties of the callback registry *)

Section CallerInvariants.
Context {I F A : Type} `{EqDecision I} `{EqDecision F}.
Variable body : F -> A -> list (op I F A).
Implicit Types (h : Heap I F A) (this : I) (callback : F) (args : A).
Local Open Scope nat_scope.

(** X11. Whatever the callbacks do, every run that returns keeps the heap
    well formed (each registry has an array of its own) and only extends
    the log of applied callbacks. *)
Theorem exec_keeps_heap_well_formed fuel :
  forall todo h h',
    wf h -> exec body fuel todo h = Some h' ->
    wf h' /\ calls h `prefix_of` calls h'.
Proof.
  induction fuel as [| fuel IH]; intros todo h h' Hwf Hex.
  - destruct todo as [| [[] |] todo]; simpl in Hex; try discriminate.
    injection Hex as <-. split; [exact Hwf | reflexivity].
  - destruct todo as [| [[this cb | this cb | this | this args] | array index args] todo];
      simpl in Hex.
    + injection Hex as <-. split; [exact Hwf | reflexivity].
    + apply IH in Hex; [exact Hex | apply wf_add, Hwf].
    + apply IH in Hex; [exact Hex | apply wf_remove, Hwf].
    + apply IH in Hex; [exact Hex | apply wf_clear, Hwf].
    + apply IH in Hex; [exact Hex | exact Hwf].
    + destruct (arrays h !! array ≫= _) as [cb |].
      * apply IH in Hex; [| apply wf_apply, Hwf].
        destruct Hex as [Hwf' Hpre]. split; [exact Hwf' |].
        etransitivity; [| exact Hpre]. simpl. apply prefix_app_r. reflexivity.
      * apply IH in Hex; [exact Hex | exact Hwf].
Qed.

(** X12. [add] then [remove] of the same callback leaves the registry as
    it was exactly when the callback was not subscribed before; if it was,
    the earlier registrations go as well.  Other registries are
    untouched. *)
Theorem add_remove_round_trip this callback h :
  wf h ->
  let h' := remove this callback (add this callback h) in
  subscribed h' this = filter (fun cb => cb <> callback) (subscribed h this) /\
  (subscribed h' this = subscribed h this <-> callback ∉ subscribed h this) /\
  (forall i, i <> this -> subscribed h' i = subscribed h i).
Proof.
  intros Hwf h'. subst h'.
  assert (Heq : subscribed (remove this callback (add this callback h)) this =
                filter (fun cb => cb <> callback) (subscribed h this)).
  { rewrite subscribed_remove by (apply wf_add, Hwf).
    rewrite decide_True by reflexivity.
    rewrite subscribed_add by exact Hwf. rewrite decide_True by reflexivity.
    rewrite list.filter_app, filter_cons,
      decide_False by (intros Hne; apply Hne; reflexivity).
    rewrite filter_nil, app_nil_r. reflexivity. }
  split; [exact Heq |]. split.
  - rewrite Heq. split.
    + intros Hf Hin. rewrite <- Hf in Hin.
      apply list_elem_of_filter in Hin as [Hne _]. apply Hne. reflexivity.
    + intros Hnin. apply filter_all. intros x Hx ->. contradiction.
  - intros i Hi.
    rewrite subscribed_remove by (apply wf_add, Hwf).
    rewrite decide_False by (intros Heq'; apply Hi; symmetry; exact Heq').
    rewrite subscribed_add by exact Hwf.
    rewrite decide_False by (intros Heq'; apply Hi; symmetry; exact Heq').
    reflexivity.
Qed.

(** Method calls that only unsubscribe run to completion, apply nothing,
    leave the arrays already there alone and shrink the registries. *)
Lemma runs_unsubscribing (ops : list (op I F A)) :
  forall h,
    wf h -> forallb unsubscribes ops = true ->
    exists h',
      runs body (length ops) (Do <$> ops) h h' /\
      wf h' /\ calls h' = calls h /\
      arrays h `prefix_of` arrays h' /\
      forall i, subscribed h' i `sublist_of` subscribed h i.
Proof.
  induction ops as [| o ops IH]; intros h Hwf Hall.
  - exists h. split; [apply runs_nil |]. split; [exact Hwf |].
    split; [reflexivity |]. split; reflexivity.
  - simpl in Hall. apply andb_prop in Hall as [Ho Hall].
    destruct o as [this cb | this cb | this | this args]; try discriminate.
    + destruct (IH (remove this cb h) (wf_remove this cb h Hwf) Hall)
        as (h' & Hr & Hwf' & Hc & Hp & Hs).
      exists h'. split; [| split; [exact Hwf' | split; [exact Hc | split]]].
      * eapply (runs_app body 1 (length ops) [Do (Remove this cb)]);
          [apply runs_remove | exact Hr].
      * etransitivity; [| exact Hp]. simpl. apply prefix_app_r. reflexivity.
      * intros i. etransitivity; [apply Hs |].
        rewrite subscribed_remove by exact Hwf.
        destruct (decide (this = i)) as [<- | _]; [apply sublist_filter | reflexivity].
    + destruct (IH (clear this h) (wf_clear this h Hwf) Hall)
        as (h' & Hr & Hwf' & Hc & Hp & Hs).
      exists h'. split; [| split; [exact Hwf' | split; [exact Hc | split]]].
      * eapply (runs_app body 1 (length ops) [Do (Clear this)]);
          [apply runs_clear | exact Hr].
      * etransitivity; [| exact Hp]. simpl. apply prefix_app_r. reflexivity.
      * intros i. etransitivity; [apply Hs |].
        rewrite subscribed_clear by exact Hwf.
        destruct (decide (this = i)) as [<- | _]; [apply sublist_nil_l | reflexivity].
Qed.

Lemma forOf_unsubscribing args array :
  forall (rest pre : list F) h,
    wf h ->
    arrays h !! array = Some (pre ++ rest) ->
    (forall f, f ∈ rest -> forallb unsubscribes (body f args) = true) ->
    exists n h',
      runs body n [ForOf array (length pre) args] h h' /\
      wf h' /\
      calls h' = calls h ++ ((fun f => (f, args)) <$> rest) /\
      forall i, subscribed h' i `sublist_of` subscribed h i.
Proof.
  induction rest as [| f rest IH]; intros pre h Hwf Ha Hbody.
  - exists 1, h. split; [| split; [exact Hwf | split]].
    + eapply runs_forOf_end; [exact Ha |]. rewrite app_nil_r. lia.
    + simpl. rewrite app_nil_r. reflexivity.
    + reflexivity.
  - assert (Hf : (pre ++ f :: rest) !! length pre = Some f)
      by (apply list_lookup_middle; reflexivity).
    destruct (runs_unsubscribing (body f args) (apply f args h)
                (wf_apply f args h Hwf) (Hbody f (list_elem_of_here _ _)))
      as (h1 & Hr1 & Hwf1 & Hc1 & Hp1 & Hs1).
    destruct (IH (pre ++ [f]) h1 Hwf1) as (n & h' & Hr & Hwf' & Hc & Hs).
    { rewrite <- app_assoc.
      eapply prefix_lookup_Some; [| exact Hp1]. exact Ha. }
    { intros g Hg. apply Hbody. right. exact Hg. }
    rewrite length_app, Nat.add_1_r in Hr.
    exists (S (length (body f args) + n)), h'.
    split; [| split; [exact Hwf' | split]].
    + eapply runs_forOf_step; [exact Ha | exact Hf | exact Hr1 | exact Hr].
    + rewrite Hc, Hc1. simpl. rewrite <- app_assoc. reflexivity.
    + intros i. etransitivity; [apply Hs |]. apply Hs1.
Qed.

(** X13. When the subscribed callbacks, whatever else they do, call only
    [remove] and [clear] on the registries, [invoke] returns and applies
    exactly the callbacks that were subscribed when it started, each once
    per registration and in subscription order; afterwards every registry
    holds a sublist of what it held. *)
Theorem invoke_applies_snapshot this args h :
  wf h ->
  (forall f, f ∈ subscribed h this ->
     forallb unsubscribes (body f args) = true) ->
  exists fuel h',
    invoke body fuel this args h = Some h' /\
    wf h' /\
    calls h' = calls h ++ ((fun f => (f, args)) <$> subscribed h this) /\
    forall i, subscribed h' i `sublist_of` subscribed h i.
Proof.
  intros Hwf Hbody.
  destruct (forOf_unsubscribing args (callbacks h this) (subscribed h this) [] h
              Hwf (subscribed_lookup h this Hwf) Hbody)
    as (n & h' & Hr & Hwf' & Hc & Hs).
  exists (S n), h'. split; [| split; [exact Hwf' | split; [exact Hc | exact Hs]]].
  unfold invoke. apply runs_done, runs_invoke, Hr.
Qed.
End CallerInvariants.

Lemma invoke_applies_snapshot_witness :
  exists fuel h',
    invoke clearingBody fuel onNote padHit sampleEvents = Some h' /\
    fst <$> calls h' = [0; 1; 2]%nat /\
    subscribed h' onNote `sublist_of` [0; 1; 2]%nat.
Proof.
  destruct (invoke_applies_snapshot clearingBody onNote padHit sampleEvents
              wf_sampleEvents)
    as (fuel & h' & Hrun & _ & Hcalls & Hsub).
  - intros f _. unfold clearingBody. destruct (f =? 0)%nat; reflexivity.
  - exists fuel, h'. split; [exact Hrun |].
    split; [rewrite Hcalls; reflexivity | apply (Hsub onNote)].
Defined.

Lemma add_remove_round_trip_witness :
  subscribed (remove onNote 7%nat (add onNote 7%nat sampleEvents)) onNote =
    [0; 1; 2]%nat.
Proof.
  rewrite (proj1 (add_remove_round_trip onNote 7%nat sampleEvents wf_sampleEvents)).
  reflexivity.
Defined.

Lemma exec_keeps_heap_well_formed_witness :
  exists h',
    invoke sampleBody 6 onNote padHit sampleEvents = Some h' /\
    wf h' /\ calls sampleEvents `prefix_of` calls h'.
Proof.
  destruct (invoke sampleBody 6 onNote padHit sampleEvents) as [h' |] eqn:E;
    [| discriminate E].
  exists h'. split; [reflexivity |].
  exact (exec_keeps_heap_well_formed sampleBody 6 _ sampleEvents h'
           wf_sampleEvents E).
Defined.

Section CallerSubscribingInside.
Context {I F A : Type} `{EqDecision I} `{EqDecision F}.
Variable body : F -> A -> list (op I F A).
Implicit Types (h : Heap I F A) (this : I) (callback : F) (args : A).
Local Open Scope nat_scope.



(** The loop of [invoke] never ends while a callback that subscribes
    itself again lies ahead in the array under the loop. *)
Lemma forOf_self_adding this args (selfAdds : F -> bool) :
  forall fuel h index todo (l : list F),
    arrays h !! callbacks h this = Some l ->
    (forall f, f ∈ l ->
       body f args = if selfAdds f then [Add this f] else []) ->
    (exists j f, index <= j /\ l !! j = Some f /\ selfAdds f = true) ->
    exec body fuel (ForOf (callbacks h this) index args :: todo) h = None.
Proof.
  induction fuel as [fuel IH] using lt_wf_ind.
  intros h index todo l Ha Hbody (j & f & Hij & Hj & Hf).
  destruct fuel as [| fuel]; [reflexivity |].
  simpl. rewrite Ha. simpl.
  assert (Hlen : j < length l) by (eapply lookup_lt_Some; exact Hj).
  destruct (l !! index) as [c |] eqn:Ec;
    [| apply lookup_ge_None in Ec; lia].
  assert (Hc : c ∈ l) by (apply list_elem_of_lookup; eauto).
  rewrite (Hbody c Hc).
  destruct (selfAdds c) eqn:Esc.
  - simpl. destruct fuel as [| fuel]; [reflexivity |]. simpl.
    apply (IH fuel ltac:(lia) (add this c (apply c args h)) (S index) todo (l ++ [c])).
    + simpl. rewrite list_lookup_alter_eq, Ha. reflexivity.
    + intros x Hx. apply elem_of_app in Hx as [Hx | Hx]; [apply Hbody, Hx |].
      apply list_elem_of_singleton in Hx. subst x. apply Hbody, Hc.
    + exists (length l), c. split; [lia |]. split; [| exact Esc].
      apply list_lookup_middle. reflexivity.
  - simpl.
    apply (IH fuel ltac:(lia) (apply c args h) (S index) todo l Ha Hbody).
    exists j, f. split; [| split; [exact Hj | exact Hf]].
    destruct (decide (index = j)) as [-> | Hne]; [| lia].
    rewrite Hj in Ec. injection Ec as ->. congruence.
Qed.

(** X15. A callback that subscribes itself again whenever it runs keeps
    [invoke] from ever returning: among callbacks that otherwise do nothing
    to the registry, one such callback makes [invoke] run out of every
    amount of fuel. *)
Theorem self_subscribing_never_returns this (f : F) args
    (selfAdds : F -> bool) h :
  wf h ->
  f ∈ subscribed h this ->
  selfAdds f = true ->
  (forall c, c ∈ subscribed h this ->
     body c args = if selfAdds c then [Add this c] else []) ->
  forall fuel, invoke body fuel this args h = None.
Proof.
  intros Hwf Hin Hf Hbody fuel. unfold invoke.
  destruct fuel as [| fuel]; [reflexivity |]. simpl.
  apply (forOf_self_adding this args selfAdds fuel h 0 [] (subscribed h this)).
  - apply subscribed_lookup, Hwf.
  - exact Hbody.
  - apply list_elem_of_lookup in Hin as [j Hj].
    exists j, f. split; [lia |]. split; [exact Hj | exact Hf].
Qed.
End CallerSubscribingInside.


Lemma self_subscribing_never_returns_witness :
  invoke resubscribingBody 1000 onNote padHit sampleEvents = None.
Proof.
  apply (self_subscribing_never_returns resubscribingBody onNote 1%nat padHit
           (fun f => (f =? 1)%nat) sampleEvents wf_sampleEvents).
  - apply list_elem_of_lookup. exists 1%nat. reflexivity.
  - reflexivity.
  - intros c _. unfold resubscribingBody.
    destruct (Nat.eqb_spec c 1) as [-> | _]; reflexivity.
Defined.

(** * Further properties of the listener built on [Caller] *)

Section ListenerProperties.
Context {F : Type} `{EqDecision F}.
Variable body : F -> Event -> list (op EventName F Event).
Implicit Types (h : Heap EventName F Event) (e : EventName).
Implicit Types (callbacks : @MidiListenerEventCallbacks F).
Local Open Scope nat_scope.

(** X16. Subscribing callbacks none of which was subscribed to its event
    before, and then calling the returned function, leaves every registry
    as it was before subscribing. *)
Theorem subscribe_revoke_round_trip callbacks h0 :
  wf h0 ->
  (forall e f, callbacks e = Some f -> f ∉ subscribed h0 e) ->
  exists fuel h1 handle,
    subscribe body fuel callbacks h0 = Some (h1, handle) /\
    exists fuel' h2,
      exec body fuel' (Do <$> handle) h1 = Some h2 /\
      calls h2 = calls h0 /\
      forall e, subscribed h2 e = subscribed h0 e.
Proof.
  intros Hwf0 Hfresh.
  destruct (subscribe_loop body callbacks eventNames NoDup_eventNames h0 Hwf0)
    as (n & h1 & Hr & Hwf1 & Hc1 & Hs1).
  destruct (revoke_loop body callbacks eventNames NoDup_eventNames h1 Hwf1)
    as (m & h2 & Hr' & _ & Hc2 & Hs2).
  exists n, h1, (revoke callbacks). split.
  { unfold subscribe, subscribeLoop.
    rewrite (runs_done body n _ h0 h1 Hr). reflexivity. }
  exists m, h2. split; [apply runs_done, Hr' |].
  split; [rewrite Hc2; exact Hc1 |].
  intros e. rewrite Hs2, Hs1, !decide_True by apply elem_of_eventNames.
  destruct (callbacks e) as [f |] eqn:Ecb; simpl; [| apply app_nil_r].
  rewrite list.filter_app, filter_cons,
    decide_False by (intros Hne; apply Hne; reflexivity).
  rewrite filter_nil, app_nil_r.
  apply filter_all. intros x Hx ->. exact (Hfresh e f Ecb Hx).
Qed.


(** One [invoke] when the subscribed callbacks do nothing to the
    registries. *)
Lemma runs_invoke_inert e (report : Event) h :
  wf h ->
  (forall g, g ∈ subscribed h e -> body g report = []) ->
  exists n h',
    runs body n [Do (Invoke e report)] h h' /\
    wf h' /\
    calls h' = calls h ++ ((fun g => (g, report)) <$> subscribed h e) /\
    forall i, subscribed h' i = subscribed h i.
Proof.
  intros Hwf Hinert.
  destruct (forOf_self_removing body e report (fun _ => false) (callbacks h e)
              (subscribed h e) [] h Hwf (subscribed_lookup h e Hwf) Hinert)
    as (n & h' & Hr & Hwf' & Hc & Hs & Hfr).
  exists (S n), h'. split; [apply runs_invoke, Hr |].
  split; [exact Hwf' |]. split; [exact Hc |].
  intros i. destruct (decide (i = e)) as [-> | Hne]; [| apply Hfr, Hne].
  rewrite Hs. apply filter_all. intros x _ [Hx _]. discriminate Hx.
Qed.

Lemma runs_invokes_inert (reports : list Event) :
  forall h,
    wf h ->
    (forall r g, r ∈ reports -> g ∈ subscribed h (callerOf r) -> body g r = []) ->
    exists n h',
      runs body n (Do <$> ((fun r => Invoke (callerOf r) r) <$> reports)) h h' /\
      wf h' /\
      calls h' =
        calls h ++
          concat ((fun r => (fun g => (g, r)) <$> subscribed h (callerOf r))
                    <$> reports) /\
      forall i, subscribed h' i = subscribed h i.
Proof.
  induction reports as [| r reports IH]; intros h Hwf Hinert.
  - exists 0, h. split; [apply runs_nil |]. split; [exact Hwf |].
    split; [simpl; rewrite app_nil_r; reflexivity | reflexivity].
  - destruct (runs_invoke_inert (callerOf r) r h Hwf)
      as (n1 & h1 & Hr1 & Hwf1 & Hc1 & Hs1).
    { intros g Hg. apply Hinert; [left | exact Hg]. }
    destruct (IH h1 Hwf1) as (n & h' & Hr & Hwf' & Hc & Hs).
    { intros r' g Hr' Hg. rewrite Hs1 in Hg. apply Hinert; [right; exact Hr' | exact Hg]. }
    exists (n1 + n), h'. split; [| split; [exact Hwf' | split]].
    + eapply (runs_app body n1 n [Do (Invoke (callerOf r) r)]); [exact Hr1 | exact Hr].
    + rewrite Hc, Hc1. simpl. rewrite <- app_assoc. f_equal. f_equal. f_equal.
      apply list_fmap_ext. intros _ r' _. rewrite Hs1. reflexivity.
    + intros i. rewrite Hs, Hs1. reflexivity.
Qed.

(** X18. A message reaches the subscribers in a fixed order: when the
    subscribed callbacks do nothing to the registries, handling a message
    applies, for each report the classifier emits and in the order it emits
    them (the generic message first), every callback subscribed to that
    report's event, in subscription order, with that report; the registries
    are left as they were. *)
Theorem message_delivery_order (midiMessage : list byte) h :
  wf h ->
  (forall e g r, g ∈ subscribed h e -> body g r = []) ->
  exists fuel h',
    exec body fuel (Do <$> handleMidiMessageInvoke midiMessage) h = Some h' /\
    calls h' =
      calls h ++
        concat ((fun r => (fun g => (g, r)) <$> subscribed h (callerOf r))
                  <$> handleMidiMessage midiMessage) /\
    forall e, subscribed h' e = subscribed h e.
Proof.
  intros Hwf Hinert.
  destruct (runs_invokes_inert (handleMidiMessage midiMessage) h Hwf)
    as (n & h' & Hr & _ & Hc & Hs).
  { intros r g _ Hg. eapply Hinert, Hg. }
  exists n, h'. split; [apply runs_done, Hr |]. split; [exact Hc | exact Hs].
Qed.

Lemma clear_loop (es : list EventName) :
  forall h, wf h ->
  exists n h',
    runs body n (Do <$> ((fun e => Clear e) <$> es)) h h' /\
    wf h' /\ calls h' = calls h /\
    forall e, subscribed h' e = if decide (e ∈ es) then [] else subscribed h e.
Proof.
  induction es as [| e0 es IH]; intros h Hwf.
  - exists 0, h. split; [apply runs_nil |]. split; [exact Hwf |].
    split; [reflexivity |]. intros e.
    rewrite decide_False by apply not_elem_of_nil. reflexivity.
  - destruct (IH (clear e0 h) (wf_clear e0 h Hwf)) as (n & h' & Hr & Hwf' & Hc & Hs).
    exists (1 + n), h'. split; [| split; [exact Hwf' | split; [exact Hc |]]].
    + eapply (runs_app body 1 n [Do (Clear e0)]); [apply runs_clear | exact Hr].
    + intros e. rewrite Hs, subscribed_clear by exact Hwf.
      destruct (decide (e ∈ es)) as [Hin | Hout].
      * rewrite decide_True by (right; exact Hin). reflexivity.
      * destruct (decide (e0 = e)) as [<- | Hne].
        -- rewrite decide_True by left. reflexivity.
        -- rewrite decide_False; [reflexivity |].
           rewrite elem_of_cons. intros [-> | Hin]; [apply Hne; reflexivity | apply Hout, Hin].
Qed.

(** X19. After [clear()] of the listener nothing is subscribed to any
    event, and no message applies any callback, whatever the callbacks
    subscribed before would have done. *)
Theorem clear_silences h :
  wf h ->
  exists fuel h1,
    exec body fuel (Do <$> clearAll) h = Some h1 /\
    calls h1 = calls h /\
    (forall e, subscribed h1 e = []) /\
    forall midiMessage : list byte,
      exists fuel' h2,
        exec body fuel' (Do <$> handleMidiMessageInvoke midiMessage) h1 = Some h2 /\
        calls h2 = calls h1 /\
        forall e, subscribed h2 e = [].
Proof.
  intros Hwf.
  destruct (clear_loop eventNames h Hwf) as (n & h1 & Hr & Hwf1 & Hc & Hs).
  assert (Hnone : forall e, subscribed h1 e = []).
  { intros e. rewrite Hs, decide_True by apply elem_of_eventNames. reflexivity. }
  exists n, h1. split; [apply runs_done, Hr |]. split; [exact Hc |].
  split; [exact Hnone |]. intros midiMessage.
  destruct (runs_invokes_inert (handleMidiMessage midiMessage) h1 Hwf1)
    as (m & h2 & Hr2 & _ & Hc2 & Hs2).
  { intros r g _ Hg. rewrite Hnone in Hg. inversion Hg. }
  exists m, h2. split; [apply runs_done, Hr2 |]. split.
  - rewrite Hc2. rewrite <- (app_nil_r (calls h1)) at 2. f_equal.
    clear Hr2 Hc2 Hs2.
    induction (handleMidiMessage midiMessage) as [| r l IHl]; [reflexivity |].
    rewrite fmap_cons. cbn [concat]. rewrite Hnone, IHl. reflexivity.
  - intros e. rewrite Hs2. apply Hnone.
Qed.

Lemma invoke_newEvents (fuel : nat) e (report : Event) :
  invoke body (S (S fuel)) e report newEvents = Some newEvents.
Proof. destruct e, fuel; reflexivity. Qed.

(** X20. Constructing the listener reports the initial input change to
    nobody: the first curation runs inside the constructor, before anything
    can be subscribed, so no callback is applied; the count is stored all
    the same, and the state-change hook is installed. *)
Theorem construction_reaches_no_subscriber (fuel : nat)
    (options_access : MIDIAccess) :
  2 <= fuel ->
  exists this,
    Subscribing.new body fuel options_access = Some this /\
    Subscribing.events this = newEvents /\
    calls (Subscribing.events this) = [] /\
    Subscribing.numberOfActiveInputs this =
      Some (openCount (inputs options_access)) /\
    onstatechange (Subscribing.access this) = Some CurateMidiInputs /\
    Forall (fun kv => onmidimessage kv.2 = Some handleMidiMessage)
      (inputs (Subscribing.access this)).
Proof.
  intros Hfuel. destruct fuel as [| [| fuel]]; try lia.
  unfold Subscribing.new, Subscribing.curateMidiInputs.
  cbn [Subscribing.access Subscribing.numberOfActiveInputs Subscribing.events].
  rewrite curateLoop_spec. cbn [strictNe]. rewrite invoke_newEvents.
  eexists. split; [reflexivity |].
  repeat split.
  simpl. apply Forall_fmap, Forall_forall. intros kv _. reflexivity.
Qed.

(** X21. A later state change reaches the subscribers of the input change
    exactly when the count differs from the stored one: with the same
    count no callback is applied and the listener keeps its registries;
    with another count every subscribed callback (here ones that do nothing
    to the registries) is applied in subscription order with the full list
    of names, and the new count is stored. *)
Theorem statechange_delivery (this : Subscribing.MidiListener)
    (inputs' : list (string * MIDIInput)) (n : nat) :
  wf (Subscribing.events this) ->
  onstatechange (Subscribing.access this) = Some CurateMidiInputs ->
  Subscribing.numberOfActiveInputs this = Some n ->
  (forall g r, g ∈ subscribed (Subscribing.events this) onInputChange ->
     body g r = []) ->
  exists fuel this',
    Subscribing.statechange body fuel inputs' this = Some this' /\
    (openCount inputs' = n ->
       Subscribing.events this' = Subscribing.events this /\
       Subscribing.numberOfActiveInputs this' = Some n) /\
    (openCount inputs' <> n ->
       calls (Subscribing.events this') =
         calls (Subscribing.events this) ++
           ((fun g => (g, InputChange {| inputNames := namesOf inputs' |}))
              <$> subscribed (Subscribing.events this) onInputChange) /\
       Subscribing.numberOfActiveInputs this' = Some (openCount inputs')).
Proof.
  intros Hwf Hhook Hn Hinert.
  unfold Subscribing.statechange, Subscribing.curateMidiInputs.
  cbn [Subscribing.access Subscribing.numberOfActiveInputs Subscribing.events
       inputs onstatechange].
  rewrite Hhook, curateLoop_spec, Hn, strictNe_Some.
  cbn [Nat.add app].
  destruct (decide (openCount inputs' = n)) as [Heq | Hne].
  - exists 0. eexists. split; [reflexivity |]. split; [| intros; contradiction].
    intros _. split; reflexivity.
  - destruct (runs_invoke_inert onInputChange
                (InputChange {| inputNames := namesOf inputs' |})
                (Subscribing.events this) Hwf)
      as (m & h' & Hr & _ & Hc & _).
    { intros g Hg. apply Hinert, Hg. }
    exists m. eexists. unfold invoke.
    rewrite (runs_done body m _ _ h' Hr). split; [reflexivity |].
    split; [intros; contradiction |]. intros _. split; [exact Hc | reflexivity].
Qed.
End ListenerProperties.

Lemma not_subscribed_sample (e : EventName) (f : nat) :
  onlyNote 7%nat e = Some f -> f ∉ subscribed sampleEvents e.
Proof.
  destruct e; simpl; intros Hf; try discriminate Hf. injection Hf as <-.
  change (subscribed sampleEvents onNote) with [0; 1; 2]%nat.
  intros Hin. apply list_elem_of_In in Hin. simpl in Hin.
  destruct Hin as [Hin | [Hin | [Hin | []]]]; discriminate Hin.
Qed.

Lemma subscribe_revoke_round_trip_witness :
  exists fuel h1 handle,
    subscribe sampleBody fuel (onlyNote 7%nat) sampleEvents = Some (h1, handle) /\
    exists fuel' h2,
      exec sampleBody fuel' (Do <$> handle) h1 = Some h2 /\
      subscribed h2 onNote = [0; 1; 2]%nat.
Proof.
  destruct (subscribe_revoke_round_trip sampleBody (onlyNote 7%nat) sampleEvents
              wf_sampleEvents not_subscribed_sample)
    as (fuel & h1 & handle & Hs & fuel' & h2 & Hex & _ & Hsub).
  exists fuel, h1, handle. split; [exact Hs |].
  exists fuel', h2. split; [exact Hex |]. rewrite Hsub. reflexivity.
Defined.


Lemma message_delivery_order_witness :
  exists fuel h',
    exec (fun _ _ => []) fuel (Do <$> handleMidiMessageInvoke [x90; x3c; x7f])
      (add onMessage 8%nat sampleEvents) = Some h' /\
    fst <$> calls h' = [8; 0; 1; 2]%nat.
Proof.
  destruct (message_delivery_order (fun _ _ => []) [x90; x3c; x7f]
              (add onMessage 8%nat sampleEvents)
              (wf_add onMessage 8%nat sampleEvents wf_sampleEvents)
              (fun _ _ _ _ => eq_refl))
    as (fuel & h' & Hex & Hcalls & _).
  exists fuel, h'. split; [exact Hex |]. rewrite Hcalls. reflexivity.
Defined.

Lemma clear_silences_witness :
  exists fuel h1,
    exec sampleBody fuel (Do <$> clearAll) sampleEvents = Some h1 /\
    subscribed h1 onNote = [] /\
    exists fuel' h2,
      exec sampleBody fuel' (Do <$> handleMidiMessageInvoke [x90; x3c; x7f]) h1
        = Some h2 /\
      calls h2 = [].
Proof.
  destruct (clear_silences sampleBody sampleEvents wf_sampleEvents)
    as (fuel & h1 & Hex & Hc & Hnone & Hmsg).
  exists fuel, h1. split; [exact Hex |]. split; [apply Hnone |].
  destruct (Hmsg [x90; x3c; x7f]) as (fuel' & h2 & Hex' & Hc' & _).
  exists fuel', h2. split; [exact Hex' |]. rewrite Hc', Hc. reflexivity.
Defined.

Lemma construction_reaches_no_subscriber_witness :
  exists this,
    Subscribing.new sampleBody 2 {| inputs := [keys; pads]; onstatechange := None |}
      = Some this /\
    calls (Subscribing.events this) = [] /\
    Subscribing.numberOfActiveInputs this = Some 2%nat.
Proof.
  destruct (construction_reaches_no_subscriber sampleBody 2
              {| inputs := [keys; pads]; onstatechange := None |} ltac:(lia))
    as (this & Hnew & _ & Hcalls & Hn & _).
  exists this. split; [exact Hnew |]. split; [exact Hcalls | exact Hn].
Defined.

Lemma statechange_delivery_witness :
  exists fuel this',
    Subscribing.statechange (fun _ _ => []) fuel [keys]
      {| Subscribing.access := {| inputs := []; onstatechange := Some CurateMidiInputs |};
         Subscribing.numberOfActiveInputs := Some 0%nat;
         Subscribing.events := add onInputChange 5%nat newEvents |} = Some this' /\
    calls (Subscribing.events this') =
      [(5%nat, InputChange {| inputNames := ["keys"]%string |})].
Proof.
  destruct (statechange_delivery (fun _ _ => [])
              {| Subscribing.access :=
                   {| inputs := []; onstatechange := Some CurateMidiInputs |};
                 Subscribing.numberOfActiveInputs := Some 0%nat;
                 Subscribing.events := add onInputChange 5%nat newEvents |}
              [keys] 0%nat
              (wf_add onInputChange 5%nat newEvents wf_newEvents)
              eq_refl eq_refl (fun _ _ _ => eq_refl))
    as (fuel & this' & Hst & _ & Hne).
  exists fuel, this'. split; [exact Hst |].
  destruct Hne as [Hcalls _]; [discriminate |]. rewrite Hcalls. reflexivity.
Defined.

(** * The third listing against the current one *)

(** X22. The listener of the third listing makes, for every message, the
    same callback calls in the same order as the current one, with the
    same numbers as arguments: the report's fields, the velocity with the
    same sign.  The current listener differs only in wrapping them in
    report objects and adding the frequency to a note. *)
Theorem legacy_agrees (message : list byte) :
  Legacy.handleMidiMessage message = legacyCall <$> handleMidiMessage message.
Proof.
  unfold Legacy.handleMidiMessage, handleMidiMessage. cbv zeta.
  change (Legacy.command (Legacy.parseMidiMessage message))
    with (command (parseMidiMessage message)).
  change (Legacy.channel (Legacy.parseMidiMessage message))
    with (channel (parseMidiMessage message)).
  change (Legacy.note (Legacy.parseMidiMessage message))
    with (code (parseMidiMessage message)).
  change (Legacy.velocity (Legacy.parseMidiMessage message))
    with (value (parseMidiMessage message)).
  generalize (command (parseMidiMessage message)) as c.
  generalize (channel (parseMidiMessage message)) as ch.
  intros ch c. rewrite fmap_cons. f_equal.
  destruct (c =? 8), (c =? 9), (ch =? 0), (ch =? 15), (ch =? 9),
    (c =? 11), (c =? 14), (strictEq (code (parseMidiMessage message)) 1);
    reflexivity.
Qed.
